(** * Subtitle extractor: track resolution, fetching and text clean-up

    A shallow embedding of [subtitle_extractor.py].  Python strings are
    sequences of Unicode code points; they are modelled as lists of [N].
    The regular expressions of the module are written in a small abstract
    syntax and run by a backtracking matcher with the priorities of
    Python's [re]: leftmost match, alternatives left to right, greedy or
    lazy repetition as written. *)

From Stdlib Require Import List NArith Arith Bool String Ascii Lia.
Import ListNotations.

Set Implicit Arguments.

(** ** Python strings *)

Module PyStr.

Definition str := list N.

(** Literals are written as Rocq strings of ASCII characters. *)
Definition lit (s : string) : str := map N_of_ascii (list_ascii_of_string s).

Definition NL : N := 10.   (* '\n' *)
Definition CR : N := 13.   (* '\r' *)
Definition DQ : N := 34.   (* the double quote *)
Definition SQ : N := 39.   (* the single quote *)

Definition between (lo hi c : N) : bool := ((lo <=? c) && (c <=? hi))%N.

(** [str.isspace] on one character, also the class [\s] of [re] on [str]
    patterns and the characters removed by [str.strip()]. *)
Definition isspace (c : N) : bool :=
  between 9 13 c || between 28 32 c || (c =? 133)%N || (c =? 160)%N
  || (c =? 5760)%N || between 8192 8202 c || (c =? 8232)%N || (c =? 8233)%N
  || (c =? 8239)%N || (c =? 8287)%N || (c =? 12288)%N.

(** First code points of the ten-digit blocks of Unicode category Nd
    (Unicode 14, as shipped with CPython 3.11). *)
Definition decimal_blocks : list N :=
  [ 48; 1632; 1776; 1984; 2406; 2534; 2662; 2790; 2918; 3046; 3174; 3302;
    3430; 3558; 3664; 3792; 3872; 4160; 4240; 6112; 6160; 6470; 6608; 6784;
    6800; 6992; 7088; 7232; 7248; 42528; 43216; 43264; 43472; 43504; 43600;
    44016; 65296; 66720; 68912; 69734; 69872; 69942; 70096; 70384; 70736;
    70864; 71248; 71360; 71472; 71904; 72016; 72784; 73040; 73120; 92768;
    92864; 93008; 120782; 120792; 120802; 120812; 120822; 123200; 123632;
    125264; 130032 ]%N.

(** The class [\d] of [re] on [str] patterns. *)
Definition isdecimal (c : N) : bool :=
  existsb (fun lo => between lo (lo + 9) c) decimal_blocks.

Definition isalpha_ascii (c : N) : bool := between 97 122 c || between 65 90 c.

Fixpoint eqb (a b : str) : bool :=
  match a, b with
  | [], [] => true
  | x :: a', y :: b' => (x =? y)%N && eqb a' b'
  | _, _ => false
  end.

(** [s.startswith(p)] *)
Fixpoint startswith (p s : str) : bool :=
  match p, s with
  | [], _ => true
  | x :: p', y :: s' => (x =? y)%N && startswith p' s'
  | _ :: _, [] => false
  end.

(** [needle in hay] *)
Fixpoint contains (needle hay : str) : bool :=
  startswith needle hay ||
  match hay with
  | [] => false
  | _ :: hay' => contains needle hay'
  end.

Fixpoint lstrip (s : str) : str :=
  match s with
  | c :: s' => if isspace c then lstrip s' else s
  | [] => []
  end.

Definition rstrip (s : str) : str := rev (lstrip (rev s)).

(** [s.strip()] *)
Definition strip (s : str) : str := rstrip (lstrip s).

(** [s.isspace()]: all characters are whitespace and there is at least one. *)
Definition str_isspace (s : str) : bool :=
  match s with
  | [] => false
  | _ => forallb isspace s
  end.

(** [s.split(sep)] for a separator of one character. *)
Fixpoint split (sep : N) (s : str) : list str :=
  match s with
  | [] => [[]]
  | c :: s' =>
      if (c =? sep)%N then [] :: split sep s'
      else match split sep s' with
           | l :: ls => (c :: l) :: ls
           | [] => [[c]]
           end
  end.

(** [sep.join(parts)] *)
Fixpoint join (sep : str) (parts : list str) : str :=
  match parts with
  | [] => []
  | [p] => p
  | p :: ps => p ++ sep ++ join sep ps
  end.

(** Truth value of a string: empty strings are falsy. *)
Definition truthy (s : str) : bool :=
  match s with [] => false | _ => true end.

End PyStr.
Import PyStr.

(** ** Regular expressions *)

Module Re.

Definition cset := N -> bool.

Definition one (c : N) : cset := fun x => (x =? c)%N.
Definition oneof (cs : str) : cset := fun x => existsb (N.eqb x) cs.
Definition neg (c : cset) : cset := fun x => negb (c x).
Definition anychar : cset := fun _ => true.

(** The fragment of [re] syntax the module uses.  Repetition is applied to
    character classes only ([\s+], [\d+], [[^>]+], [.*?]). *)
Inductive re : Type :=
| Eps
| Chr (c : cset)
| Seq (r1 r2 : re)
| Alt (r1 r2 : re)
| Rep (greedy : bool) (lo : nat) (c : cset)   (* c{lo,} and c{lo,}? *)
| Bol (multiline : bool)                      (* ^ *)
| Eol (multiline : bool)                      (* $ *)
| Grp (i : nat) (r : re).                     (* i-th capture group *)

Definition caps := list (nat * str).

(** A continuation receives the character before the current position, the
    rest of the subject and the captures so far. *)
Definition cont := option N -> str -> caps -> option (str * caps).

Definition at_bol (multiline : bool) (prev : option N) : bool :=
  match prev with
  | None => true
  | Some c => multiline && (c =? NL)%N
  end.

Definition at_eol (multiline : bool) (s : str) : bool :=
  match s with
  | [] => true
  | c :: s' => (c =? NL)%N && (multiline || match s' with [] => true | _ => false end)
  end.

Fixpoint rep (greedy : bool) (c : cset) (lo : nat) (prev : option N) (s : str)
    (cs : caps) (k : cont) : option (str * caps) :=
  let stop := match lo with 0 => k prev s cs | S _ => None end in
  let more :=
    match s with
    | x :: s' => if c x then rep greedy c (pred lo) (Some x) s' cs k else None
    | [] => None
    end in
  if greedy
  then match more with Some r => Some r | None => stop end
  else match stop with Some r => Some r | None => more end.

Fixpoint run (r : re) (prev : option N) (s : str) (cs : caps) (k : cont)
    : option (str * caps) :=
  match r with
  | Eps => k prev s cs
  | Chr c =>
      match s with
      | x :: s' => if c x then k (Some x) s' cs else None
      | [] => None
      end
  | Seq r1 r2 => run r1 prev s cs (fun p s' cs' => run r2 p s' cs' k)
  | Alt r1 r2 =>
      match run r1 prev s cs k with
      | Some a => Some a
      | None => run r2 prev s cs k
      end
  | Rep g lo c => rep g c lo prev s cs k
  | Bol m => if at_bol m prev then k prev s cs else None
  | Eol m => if at_eol m s then k prev s cs else None
  | Grp i r' =>
      run r' prev s cs
        (fun p s' cs' => k p s' ((i, firstn (List.length s - List.length s') s) :: cs'))
  end.

Definition accept : cont := fun _ s cs => Some (s, cs).

(** A match of [r] that starts at the current position: the text left
    after the match, and the captured groups. *)
Definition match_here (r : re) (prev : option N) (s : str) : option (str * caps) :=
  run r prev s [] accept.

(** [re.match(r, s)] as a truth value. *)
Definition re_match (r : re) (s : str) : bool :=
  match match_here r None s with Some _ => true | None => false end.

(** Replacement templates: literal characters and group references. *)
Inductive titem : Type :=
| TLit (c : N)
| TGrp (i : nat).

Fixpoint group (i : nat) (cs : caps) : str :=
  match cs with
  | [] => []
  | (j, v) :: cs' => if Nat.eqb i j then v else group i cs'
  end.

Fixpoint expand (t : list titem) (cs : caps) : str :=
  match t with
  | [] => []
  | TLit c :: t' => c :: expand t' cs
  | TGrp i :: t' => group i cs ++ expand t' cs
  end.

(** [re.sub(r, t, s)]: scan left to right; [skip] counts the characters of
    the subject that belong to the match being replaced.  An empty match
    is replaced and the scan moves on by one character. *)
Fixpoint sub_from (r : re) (t : list titem) (prev : option N) (s : str)
    (skip : nat) : str :=
  match s with
  | [] =>
      match skip with
      | 0 => match match_here r prev [] with
             | Some (_, cs) => expand t cs
             | None => []
             end
      | S _ => []
      end
  | x :: s' =>
      match skip with
      | S n => sub_from r t (Some x) s' n
      | 0 =>
          match match_here r prev s with
          | Some (rest, cs) =>
              match List.length s - List.length rest with
              | 0 => expand t cs ++ x :: sub_from r t (Some x) s' 0
              | S n => expand t cs ++ sub_from r t (Some x) s' n
              end
          | None => x :: sub_from r t (Some x) s' 0
          end
      end
  end.

Definition sub (r : re) (t : list titem) (s : str) : str :=
  sub_from r t None s 0.

(** Concatenation of a list of expressions, and a literal word. *)
Fixpoint seq (rs : list re) : re :=
  match rs with
  | [] => Eps
  | [r] => r
  | r :: rs' => Seq r (seq rs')
  end.

Definition word (w : string) : re := seq (map (fun c => Chr (one c)) (lit w)).

End Re.
Import Re.

(** ** The patterns of [_clean_subtitle_text] *)

Module Pat.

Definition space : cset := isspace.
Definition digit : cset := isdecimal.

Fixpoint times (n : nat) (r : re) : list re :=
  match n with
  | 0 => []
  | S n' => r :: times n' r
  end.

(** [\d{2}:\d{2}:\d{2}] followed by a millisecond separator of class [sep]
    and [\d{3}] *)
Definition timestamp (sep : cset) : list re :=
  times 2 (Chr digit) ++ [Chr (one 58)] ++ times 2 (Chr digit) ++ [Chr (one 58)]
  ++ times 2 (Chr digit) ++ [Chr sep] ++ times 3 (Chr digit).

(** [\s*-->\s*] *)
Definition arrow : list re :=
  [Rep true 0 space; Chr (one 45); Chr (one 45); Chr (one 62); Rep true 0 space].

(** [^WEBVTT.*?\n\n] with [re.MULTILINE | re.DOTALL] *)
Definition vtt_header : re :=
  seq [Bol true; word "WEBVTT"; Rep false 0 anychar; Chr (one NL); Chr (one NL)].

(** [\d{2}:\d{2}:\d{2}[,\.]\d{3}\s*-->\s*\d{2}:\d{2}:\d{2}[,\.]\d{3}] *)
Definition srt_timestamp : re :=
  seq (timestamp (oneof (lit ",.")) ++ arrow ++ timestamp (oneof (lit ",."))).

(** [\d{2}:\d{2}:\d{2}\.\d{3}\s*-->\s*\d{2}:\d{2}:\d{2}\.\d{3}] *)
Definition vtt_timestamp : re :=
  seq (timestamp (one 46) ++ arrow ++ timestamp (one 46)).

(** [^\d+\s*$] with [re.MULTILINE] *)
Definition sequence_number : re :=
  seq [Bol true; Rep true 1 digit; Rep true 0 space; Eol true].

(** [<[^>]+>] *)
Definition tag : re := seq [Chr (one 60); Rep true 1 (neg (one 62)); Chr (one 62)].

(** [{[^}]+}] *)
Definition style_block : re :=
  seq [Chr (one 123); Rep true 1 (neg (one 125)); Chr (one 125)].

(** [position:\d+%] *)
Definition position_cue : re := seq [word "position:"; Rep true 1 digit; Chr (one 37)].

(** [align:[a-zA-Z]+] *)
Definition align_cue : re := seq [word "align:"; Rep true 1 isalpha_ascii].

(** [size:\d+%] *)
Definition size_cue : re := seq [word "size:"; Rep true 1 digit; Chr (one 37)].

(** The characters of the class written [\[ \] { } , DQ \'] in the source
    (DQ is the double quote): brackets, braces, the comma, both quotes. *)
Definition artifact_chars : str := lit "[]{}," ++ [DQ; SQ].

(** The class above, one character. *)
Definition artifact : re := Chr (oneof artifact_chars).

(** [wsWinStyles|wpWinPositions|events] *)
Definition json_token : re :=
  Alt (word "wsWinStyles") (Alt (word "wpWinPositions") (word "events")).

(** [^[...]+$] where the class holds [\s], the characters above and the
    colon. *)
Definition special_line : re :=
  seq [Bol false;
       Rep true 1 (fun c => isspace c || oneof (artifact_chars ++ lit ":") c);
       Eol false].

(** [[\r\n]+] *)
Definition newlines : re := Rep true 1 (oneof [CR; NL]).

(** [\s+] *)
Definition spaces : re := Rep true 1 space.

Definition sentence_end : cset := oneof (lit ".!?").

(** [\s+([.!?])] *)
Definition space_before_end : re := seq [Rep true 1 space; Grp 1 (Chr sentence_end)].

(** [([.!?])([^\s])] *)
Definition end_before_text : re :=
  seq [Grp 1 (Chr sentence_end); Grp 2 (Chr (neg space))].

(** [\s+([,])] *)
Definition space_before_comma : re := seq [Rep true 1 space; Grp 1 (Chr (one 44))].

(** [([,])([^\s])] *)
Definition comma_before_text : re :=
  seq [Grp 1 (Chr (one 44)); Grp 2 (Chr (neg space))].

(** The replacement templates [''], [' '], [r'\1'] and [r'\1 \2']. *)
Definition t_empty : list titem := [].
Definition t_space : list titem := [TLit 32].
Definition t_g1 : list titem := [TGrp 1].
Definition t_g1_sp_g2 : list titem := [TGrp 1; TLit 32; TGrp 2].

End Pat.

(** ** The clean-up pipeline shared by both branches *)

Module Clean.

(** The test of the line loop: [line and not line.isspace() and not
    re.match(special_line, line)]. *)
Definition keep_line (line : str) : bool :=
  truthy line && negb (str_isspace line) && negb (re_match Pat.special_line line).

(** [for line in content.split('\n'): line = line.strip(); if ...:
    lines.append(line)] *)
Definition collect_lines (content : str) : list str :=
  filter keep_line (map strip (split NL content)).

(** [' '.join(lines)] followed by the newline and whitespace substitutions. *)
Definition flatten (lines : list str) : str :=
  let text := join (lit " ") lines in
  let text := sub Pat.newlines Pat.t_space text in
  sub Pat.spaces Pat.t_space text.

(** Spacing around [.], [!] and [?]. *)
Definition space_sentences (text : str) : str :=
  let text := sub Pat.space_before_end Pat.t_g1 text in
  sub Pat.end_before_text Pat.t_g1_sp_g2 text.

(** Spacing around commas. *)
Definition space_commas (text : str) : str :=
  let text := sub Pat.space_before_comma Pat.t_g1 text in
  sub Pat.comma_before_text Pat.t_g1_sp_g2 text.

(** The final whitespace substitution and [text.strip()]. *)
Definition finish (text : str) : str :=
  strip (sub Pat.spaces Pat.t_space text).

Definition tidy (content : str) : str :=
  finish (space_commas (space_sentences (flatten (collect_lines content)))).

(** Lines 310-336: markup removal of the VTT/SRT branch. *)
Definition strip_markup (subtitle_content : str) : str :=
  let content := sub Pat.vtt_header Pat.t_empty subtitle_content in
  let content := sub Pat.srt_timestamp Pat.t_empty content in
  let content := sub Pat.vtt_timestamp Pat.t_empty content in
  let content := sub Pat.sequence_number Pat.t_empty content in
  let content := sub Pat.tag Pat.t_empty content in
  let content := sub Pat.style_block Pat.t_empty content in
  let content := sub Pat.position_cue Pat.t_empty content in
  let content := sub Pat.align_cue Pat.t_empty content in
  let content := sub Pat.size_cue Pat.t_empty content in
  let content := sub Pat.artifact Pat.t_empty content in
  sub Pat.json_token Pat.t_empty content.

(** Lines 310-365: the VTT/SRT branch as a whole. *)
Definition clean_markup (subtitle_content : str) : str :=
  tidy (strip_markup subtitle_content).

End Clean.

(** ** Exceptions *)

Inductive exn : Type :=
| TypeError
| KeyError
| JSONDecodeError
| ValueError
| RecursionError.

Inductive result (A : Type) : Type :=
| Ok (a : A)
| Raise (e : exn).

Arguments Ok {A} a.
Arguments Raise {A} e.

Definition rbind {A B : Type} (m : result A) (f : A -> result B) : result B :=
  match m with
  | Ok a => f a
  | Raise e => Raise e
  end.

Declare Scope result_scope.
Delimit Scope result_scope with result.
Notation "x <- m ;; k" := (rbind m (fun x => k))
  (at level 61, m at next level, right associativity) : result_scope.

(** [for x in xs: body x], collecting what each iteration appends; the
    first exception ends the loop. *)
Fixpoint rfor {A B : Type} (body : A -> result (list B)) (xs : list A)
    : result (list B) :=
  match xs with
  | [] => Ok []
  | x :: xs' =>
      (out <- body x ;;
       rest <- rfor body xs' ;;
       Ok (out ++ rest))%result
  end.

(** ** JSON values and [json.loads] *)

Module Json.

(** The values [json.loads] builds: [None], [bool], [int] or [float] (kept
    as the token read), [str], [list] and [dict].  A [dict] keeps its keys
    in insertion order, without duplicates. *)
#[warnings="-register-all"]
Inductive json : Type :=
| JNull
| JBool (b : bool)
| JNum (token : str)
| JStr (s : str)
| JArr (items : list json)
| JObj (members : list (str * json)).

Fixpoint dict_get {V : Type} (d : list (str * V)) (key : str) : option V :=
  match d with
  | [] => None
  | (k, v) :: d' => if PyStr.eqb k key then Some v else dict_get d' key
  end.

(** [d[key] = v]: a key already present keeps its place. *)
Fixpoint dict_set {V : Type} (d : list (str * V)) (key : str) (v : V)
    : list (str * V) :=
  match d with
  | [] => [(key, v)]
  | (k, w) :: d' =>
      if PyStr.eqb k key then (k, v) :: d' else (k, w) :: dict_set d' key v
  end.

Definition is_str (key : str) (v : json) : bool :=
  match v with
  | JStr s => PyStr.eqb s key
  | _ => false
  end.

(** [key in v] for a string [key] *)
Definition py_in (key : str) (v : json) : result bool :=
  match v with
  | JObj d => Ok (match dict_get d key with Some _ => true | None => false end)
  | JArr l => Ok (existsb (is_str key) l)
  | JStr s => Ok (contains key s)
  | JNull | JBool _ | JNum _ => Raise TypeError
  end.

(** [v[key]] for a string [key] *)
Definition py_getitem (v : json) (key : str) : result json :=
  match v with
  | JObj d => match dict_get d key with Some x => Ok x | None => Raise KeyError end
  | _ => Raise TypeError
  end.

(** The items [for x in v] goes through: the elements of a list, the keys
    of a dict, the characters of a string. *)
Definition py_iter (v : json) : result (list json) :=
  match v with
  | JArr l => Ok l
  | JObj d => Ok (map (fun kv => JStr (fst kv)) d)
  | JStr s => Ok (map (fun c => JStr [c]) s)
  | JNull | JBool _ | JNum _ => Raise TypeError
  end.

(** [' '.join(parts)]: every part has to be a [str]. *)
Fixpoint py_join_space (parts : list json) : result str :=
  match parts with
  | [] => Ok []
  | [JStr s] => Ok s
  | JStr s :: ps => (rest <- py_join_space ps ;; Ok (s ++ lit " " ++ rest))%result
  | _ :: _ => Raise TypeError
  end.

(** *** The scanner *)

Inductive parsed (A : Type) : Type :=
| Parsed (a : A) (rest : str)
| Invalid            (* the scanner gives up: [JSONDecodeError] *)
| Exhausted          (* the recursion budget of the model ran out *)
| DigitLimit.        (* [int] refuses the digits of a token: [ValueError] *)

Arguments Parsed {A} a rest.
Arguments Invalid {A}.
Arguments Exhausted {A}.
Arguments DigitLimit {A}.

Definition is_ws (c : N) : bool :=
  (c =? 32)%N || (c =? 9)%N || (c =? 10)%N || (c =? 13)%N.

Fixpoint skip_ws (s : str) : str :=
  match s with
  | c :: s' => if is_ws c then skip_ws s' else s
  | [] => []
  end.

Definition hex_value (c : N) : option N :=
  if between 48 57 c then Some (c - 48)%N
  else if between 97 102 c then Some (c - 87)%N
  else if between 65 70 c then Some (c - 55)%N
  else None.

(** Four hexadecimal digits, as in [\uXXXX]. *)
Definition hex4 (s : str) : option (N * str) :=
  match s with
  | a :: b :: c :: d :: rest =>
      match hex_value a, hex_value b, hex_value c, hex_value d with
      | Some x, Some y, Some z, Some w =>
          Some (((x * 16 + y) * 16 + z) * 16 + w, rest)%N
      | _, _, _, _ => None
      end
  | _ => None
  end.

Definition simple_escape (c : N) : option N :=
  if (c =? DQ)%N then Some DQ
  else if (c =? 92)%N then Some 92%N
  else if (c =? 47)%N then Some 47%N
  else if (c =? 98)%N then Some 8%N
  else if (c =? 102)%N then Some 12%N
  else if (c =? 110)%N then Some 10%N
  else if (c =? 114)%N then Some 13%N
  else if (c =? 116)%N then Some 9%N
  else None.

(** The subject with its first character removed, when that character is
    [c]. *)
Definition expect (c : N) (s : str) : option str :=
  match s with
  | x :: r => if (x =? c)%N then Some r else None
  | [] => None
  end.

(** The body of a string after its opening quote (strict mode: control
    characters are refused).  [fuel] bounds the number of characters read;
    one more than the length of the input is enough. *)
Fixpoint scanstring (fuel : nat) (s : str) (acc : str) : parsed str :=
  match fuel with
  | 0 => Exhausted
  | S fuel' =>
      match s with
      | [] => Invalid
      | c :: s' =>
          if (c =? DQ)%N then Parsed (rev acc) s'
          else if (c =? 92)%N then
            match s' with
            | [] => Invalid
            | e :: s'' =>
                if (e =? 117)%N then
                  match hex4 s'' with
                  | None => Invalid
                  | Some (hi, r) =>
                      (* a high surrogate followed by a second escape *)
                      match (if between 55296 56319 hi
                             then match expect 92 r with
                                  | Some r1 => expect 117 r1
                                  | None => None
                                  end
                             else None) with
                      | Some r' =>
                          match hex4 r' with
                          | None => Invalid
                          | Some (lo, r'') =>
                              if between 56320 57343 lo
                              then scanstring fuel' r''
                                     ((65536 + (hi - 55296) * 1024 + (lo - 56320))%N
                                      :: acc)
                              else scanstring fuel' r (hi :: acc)
                          end
                      | None => scanstring fuel' r (hi :: acc)
                      end
                  end
                else
                  match simple_escape e with
                  | Some x => scanstring fuel' s'' (x :: acc)
                  | None => Invalid
                  end
            end
          else if (c <=? 31)%N then Invalid
          else scanstring fuel' s' (c :: acc)
      end
  end.

Definition is_digit (c : N) : bool := between 48 57 c.

Fixpoint span_digits (s : str) : str * str :=
  match s with
  | c :: s' =>
      if is_digit c then let (d, r) := span_digits s' in (c :: d, r) else ([], s)
  | [] => ([], [])
  end.

(** The integer part of a number: [0], or a digit from 1 to 9 followed by
    digits. *)
Definition int_part (s : str) : option (str * str) :=
  match s with
  | [] => None
  | c :: r =>
      if between 49 57 c then let (d, r') := span_digits r in Some (c :: d, r')
      else if (c =? 48)%N then Some ([c], r)
      else None
  end.

(** The fraction: a dot and one digit or more; left unread otherwise. *)
Definition frac_part (s : str) : str * str :=
  match s with
  | dot :: d :: r =>
      if (dot =? 46)%N && is_digit d
      then let (ds, r') := span_digits (d :: r) in (dot :: ds, r')
      else ([], s)
  | _ => ([], s)
  end.

(** The exponent: [e] or [E], a sign when a character follows it, one digit
    or more; left unread when there is no digit. *)
Definition exp_part (s : str) : str * str :=
  match s with
  | e :: (g :: after_sign) as after =>
      if (e =? 101)%N || (e =? 69)%N then
        let (sg, s') :=
          match after_sign with
          | _ :: _ => if (g =? 45)%N || (g =? 43)%N
                      then ([g], after_sign) else ([], after)
          | [] => ([], after)
          end in
        match span_digits s' with
        | ([], _) => ([], s)
        | (ds, r) => (e :: sg ++ ds, r)
        end
      else ([], s)
  | _ => ([], s)
  end.

(** A number token: an optional minus sign, the integer part, an optional
    fraction, an optional exponent. *)
Definition match_number (s : str) : option (str * str) :=
  let (sign, s1) := match expect 45 s with
                    | Some r => ([45%N], r)
                    | None => ([], s)
                    end in
  match int_part s1 with
  | None => None
  | Some (ip, s2) =>
      let (frac, s3) := frac_part s2 in
      let (ex, s4) := exp_part s3 in
      Some (sign ++ ip ++ frac ++ ex, s4)
  end.

(** A token without fraction and exponent is converted by [int], which
    refuses more than [sys.int_info.default_max_str_digits] digits (4300 in
    CPython 3.11); the other tokens go to [float], which takes any number
    of digits. *)
Definition int_max_str_digits : nat := 4300.

Definition is_integer (token : str) : bool :=
  forallb (fun c => is_digit c || (c =? 45)%N) token.

Definition refused_by_int (token : str) : bool :=
  is_integer token
  && (int_max_str_digits <? List.length (filter is_digit token)).

(** The constants [null], [true], [false], [NaN], [Infinity] and
    [-Infinity]. *)
Definition constants : list (str * json) :=
  [ (lit "null", JNull); (lit "true", JBool true); (lit "false", JBool false);
    (lit "NaN", JNum (lit "NaN")); (lit "Infinity", JNum (lit "Infinity"));
    (lit "-Infinity", JNum (lit "-Infinity")) ].

Fixpoint match_constant (table : list (str * json)) (s : str)
    : option (json * str) :=
  match table with
  | [] => None
  | (w, v) :: table' =>
      if startswith w s then Some (v, skipn (List.length w) s)
      else match_constant table' s
  end.

(** [scan_once], [_parse_object] and [_parse_array] of the scanner. *)
Fixpoint scan_once (fuel : nat) (s : str) : parsed json :=
  match fuel with
  | 0 => Exhausted
  | S fuel' =>
      match s with
      | [] => Invalid
      | c :: s' =>
          if (c =? DQ)%N then
            match scanstring (S (List.length s')) s' [] with
            | Parsed v r => Parsed (JStr v) r
            | Invalid => Invalid
            | Exhausted => Exhausted
            | DigitLimit => DigitLimit
            end
          else if (c =? 123)%N then
            match expect 125 (skip_ws s') with
            | Some r => Parsed (JObj []) r
            | None => parse_members fuel' (skip_ws s') []
            end
          else if (c =? 91)%N then
            match expect 93 (skip_ws s') with
            | Some r => Parsed (JArr []) r
            | None => parse_items fuel' (skip_ws s') []
            end
          else
            match match_constant constants s with
            | Some (v, r) => Parsed v r
            | None =>
                match match_number s with
                | Some (tok, r) =>
                    if refused_by_int tok then DigitLimit else Parsed (JNum tok) r
                | None => Invalid
                end
            end
      end
  end

with parse_members (fuel : nat) (s : str) (acc : list (str * json))
    : parsed json :=
  match fuel with
  | 0 => Exhausted
  | S fuel' =>
      match expect DQ s with
      | None => Invalid
      | Some s1 =>
          match scanstring (S (List.length s1)) s1 [] with
          | Parsed key s2 =>
              match expect 58 (skip_ws s2) with
              | None => Invalid
              | Some s3 =>
                  match scan_once fuel' (skip_ws s3) with
                  | Parsed v s4 =>
                      let acc' := dict_set acc key v in
                      match expect 125 (skip_ws s4) with
                      | Some r => Parsed (JObj acc') r
                      | None =>
                          match expect 44 (skip_ws s4) with
                          | Some s5 => parse_members fuel' (skip_ws s5) acc'
                          | None => Invalid
                          end
                      end
                  | Invalid => Invalid
                  | Exhausted => Exhausted
                  | DigitLimit => DigitLimit
                  end
              end
          | Invalid => Invalid
          | Exhausted => Exhausted
          | DigitLimit => DigitLimit
          end
      end
  end

with parse_items (fuel : nat) (s : str) (acc : list json) : parsed json :=
  match fuel with
  | 0 => Exhausted
  | S fuel' =>
      match scan_once fuel' s with
      | Parsed v s1 =>
          match expect 93 (skip_ws s1) with
          | Some r => Parsed (JArr (rev (v :: acc))) r
          | None =>
              match expect 44 (skip_ws s1) with
              | Some s2 => parse_items fuel' (skip_ws s2) (v :: acc)
              | None => Invalid
              end
          end
      | Invalid => Invalid
      | Exhausted => Exhausted
      | DigitLimit => DigitLimit
      end
  end.

(** [json.loads(s)]: a leading byte-order mark is refused, whitespace is
    allowed around the value and nothing else may follow it.  An integer
    of too many digits ends the scan where it is read.  One limit of
    CPython is outside the model: the recursion limit, which makes
    [json.loads] raise [RecursionError] on input nested more deeply than
    the interpreter allows at the time of the call. *)
Definition loads_with (fuel : nat) (s : str) : parsed json :=
  match expect 65279 s with
  | Some _ => Invalid
  | None =>
      match scan_once fuel (skip_ws s) with
      | Parsed v r =>
          match skip_ws r with
          | [] => Parsed v []
          | _ :: _ => Invalid
          end
      | Invalid => Invalid
      | Exhausted => Exhausted
      | DigitLimit => DigitLimit
      end
  end.

Definition loads (s : str) : parsed json := loads_with (2 * List.length s + 2) s.

End Json.
Import Json.

(** ** [_clean_subtitle_text] *)

Module Normalize.

Import Clean.

(** [subtitle_content.strip().startswith('{') or '"events"' in
    subtitle_content] *)
Definition looks_like_json (subtitle_content : str) : bool :=
  startswith (lit "{") (strip subtitle_content)
  || contains ([DQ] ++ lit "events" ++ [DQ]) subtitle_content.

(** [if 'utf8' in seg: text_parts.append(seg['utf8'])] *)
Definition visit_seg (seg : json) : result (list json) :=
  (has <- py_in (lit "utf8") seg ;;
   if has : bool then (v <- py_getitem seg (lit "utf8") ;; Ok [v]) else Ok [])%result.

(** [if 'segs' in event: for seg in event['segs']: ...] *)
Definition visit_event (event : json) : result (list json) :=
  (has <- py_in (lit "segs") event ;;
   if has : bool then
     (segs <- py_getitem event (lit "segs") ;;
      items <- py_iter segs ;;
      rfor visit_seg items)
   else Ok [])%result.

(** Lines 258-305 on the parsed [data]: [Some text] when the branch
    returns [text], [None] when ['events' in data] is false. *)
Definition clean_events (data : json) : result (option str) :=
  (has <- py_in (lit "events") data ;;
   if has : bool then
     (events <- py_getitem data (lit "events") ;;
      items <- py_iter events ;;
      text_parts <- rfor visit_event items ;;
      raw_text <- py_join_space text_parts ;;
      let raw_text := sub Pat.tag Pat.t_empty raw_text in
      let raw_text := sub Pat.style_block Pat.t_empty raw_text in
      Ok (Some (tidy raw_text)))
   else Ok None)%result.

(** What the [try] block of lines 254-308 does: [Some r] when it returns or
    raises [r], [None] when control goes on to line 310 (no ['events'],
    or an exception caught by [except (json.JSONDecodeError, KeyError)]).
    The [ValueError] of [json.loads] is not caught.  [loads] never gives
    [Exhausted] (lemma [loads_within_budget]). *)
Definition json_branch (subtitle_content : str) : option (result str) :=
  match loads subtitle_content with
  | Parsed data _ =>
      match clean_events data with
      | Ok (Some text) => Some (Ok text)
      | Ok None => None
      | Raise KeyError => None
      | Raise JSONDecodeError => None
      | Raise e => Some (Raise e)
      end
  | Invalid => None
  | Exhausted => None
  | DigitLimit => Some (Raise ValueError)
  end.

Definition _clean_subtitle_text (subtitle_content : str) : result str :=
  if negb (truthy subtitle_content) then Ok []
  else
    match (if looks_like_json subtitle_content
           then json_branch subtitle_content else None) with
    | Some r => r
    | None => Ok (clean_markup subtitle_content)
    end.

End Normalize.
Import Normalize.

(** ** Track resolution and download *)

Module Tracks.

(** One entry of a format list: a dict that may hold a ['url']. *)
Record format_info : Type := { ext : str; url : option str }.

(** [subtitles] and [automatic_captions]: language to format list, in
    insertion order. *)
Definition catalog := list (str * list format_info).

(** What [urlopen(url)] followed by [response.read().decode('utf-8')]
    gives: the text, or an exception. *)
Inductive fetched : Type :=
| Content (text : str)
| Failed.

(** What [ydl.extract_info(url, download=False)] gives: the two mappings
    ([None] for a key that is absent), or an exception. *)
Inductive lookup : Type :=
| Info (subtitles automatic_captions : option catalog)
| LookupFailed.

Section WithNetwork.

Variable World : Type.
Variable urlopen : str -> World -> fetched * World.
Variable extract_info : str -> str -> World -> lookup * World.
Variable valid_url : str -> bool.

(** The state threaded through the module: the outside world, and the log
    of the locations opened so far. *)
Record state : Type := { world : World; opened : list str }.

Definition M (A : Type) : Type := state -> A * state.

Definition open_url (u : str) : M fetched :=
  fun st =>
    let (r, w) := urlopen u (world st) in
    (r, {| world := w; opened := opened st ++ [u] |}).

Fixpoint _download_subtitle_content (subtitle_formats : list format_info)
    : M (option str) :=
  fun st =>
    match subtitle_formats with
    | [] => (None, st)
    | format_info :: rest =>
        match url format_info with
        | Some u =>
            if truthy u then
              match open_url u st with
              | (Content content, st') => (Some content, st')
              | (Failed, st') => _download_subtitle_content rest st'
              end
            else _download_subtitle_content rest st
        | None => _download_subtitle_content rest st
        end
    end.

(** The first key that starts with [language + "-"]. *)
Fixpoint first_variant (subtitle_dict : catalog) (language : str)
    : option (list format_info) :=
  match subtitle_dict with
  | [] => None
  | (lang_code, formats) :: rest =>
      if startswith (language ++ lit "-") lang_code then Some formats
      else first_variant rest language
  end.

Definition _get_subtitle_from_info (subtitle_dict : catalog) (language : str)
    : M (option str) :=
  match dict_get subtitle_dict language with
  | Some formats => _download_subtitle_content formats
  | None =>
      match first_variant subtitle_dict language with
      | Some formats => _download_subtitle_content formats
      | None =>
          match subtitle_dict with
          | (first_lang, formats) :: _ => _download_subtitle_content formats
          | [] => fun st => (None, st)
          end
      end
  end.

Definition content_truthy (c : option str) : bool :=
  match c with
  | Some s => truthy s
  | None => false
  end.

(** [x = first; if x: return x] followed by [next]. *)
Definition or_else (first next : M (option str)) : M (option str) :=
  fun st =>
    let (c, st') := first st in
    if content_truthy c then (c, st') else next st'.

(** [if d: first_lang = next(iter(d.keys())); c = _get_subtitle_from_info(d,
    first_lang); if c: return c] followed by [next]. *)
Definition try_first_language (d : catalog) (next : M (option str))
    : M (option str) :=
  match d with
  | (first_lang, _) :: _ => or_else (_get_subtitle_from_info d first_lang) next
  | [] => next
  end.

Definition _resolve_subtitle_priority (subtitles automatic_captions : catalog)
    (language : str) : M (option str) :=
  or_else (_get_subtitle_from_info subtitles language)
    (or_else (_get_subtitle_from_info automatic_captions language)
       (try_first_language subtitles
          (try_first_language automatic_captions
             (fun st => (None, st))))).

Definition or_empty (c : option catalog) : catalog :=
  match c with
  | Some d => d
  | None => []
  end.

Definition _extract_subtitle_content (video_url language : str)
    : M (option str) :=
  fun st =>
    match extract_info video_url language (world st) with
    | (Info subtitles automatic_captions, w) =>
        _resolve_subtitle_priority (or_empty subtitles)
          (or_empty automatic_captions) language
          {| world := w; opened := opened st |}
    | (LookupFailed, w) => (None, {| world := w; opened := opened st |})
    end.

(** [extract_subtitles]: every exception raised below it is caught and
    turned into the empty string. *)
Definition extract_subtitles (video_url language : str) : M str :=
  fun st =>
    if valid_url video_url then
      let (subtitle_content, st') := _extract_subtitle_content video_url language st in
      match subtitle_content with
      | Some c =>
          if truthy c then
            match _clean_subtitle_text c with
            | Ok text => (text, st')
            | Raise _ => ([], st')
            end
          else ([], st')
      | None => ([], st')
      end
    else ([], st).

End WithNetwork.

End Tracks.
Import Tracks.

(** ** [_clean_subtitle_text] with [json.loads] left open *)

Module AnyLoads.

Import Clean.

Section WithLoads.

(** What the call [json.loads(subtitle_content)] comes to: the value it
    returns or the exception it raises, whatever the interpreter and its
    limits are. *)
Variable json_loads : str -> result json.

(** The [try] block of lines 254-308, as [json_branch] above. *)
Definition json_branch (subtitle_content : str) : option (result str) :=
  match (data <- json_loads subtitle_content ;; clean_events data)%result with
  | Ok (Some text) => Some (Ok text)
  | Ok None => None
  | Raise KeyError => None
  | Raise JSONDecodeError => None
  | Raise e => Some (Raise e)
  end.

Definition _clean_subtitle_text (subtitle_content : str) : result str :=
  if negb (truthy subtitle_content) then Ok []
  else
    match (if looks_like_json subtitle_content
           then json_branch subtitle_content else None) with
    | Some r => r
    | None => Ok (clean_markup subtitle_content)
    end.

End WithLoads.

(** The scanner of this file as a behaviour of [json.loads]. *)
Definition scanned (s : str) : result json :=
  match loads s with
  | Parsed data _ => Ok data
  | Invalid => Raise JSONDecodeError
  | Exhausted => Raise JSONDecodeError
  | DigitLimit => Raise ValueError
  end.

End AnyLoads.

(** ** URL checks *)

Module Urls.

(** What [urlparse(url)] gives, as far as this code looks at it: the scheme
    and the network location of the result, or an exception. *)
Inductive url_parts : Type :=
| Parts (scheme netloc : str)
| ParseError.

(** [a and b] on two strings: [a] when [a] is empty, else [b]. *)
Definition py_and (a b : str) : str := if truthy a then b else a.

(** [all([result.scheme, result.netloc])] *)
Definition has_scheme_and_netloc (result : url_parts) : bool :=
  match result with
  | Parts scheme netloc => forallb truthy [scheme; netloc]
  | ParseError => false
  end.

Section WithUrlparse.

Variable urlparse : str -> url_parts.

(** [_validate_url] of subtitle_extractor.py: [False] when [urlparse]
    raises. *)
Definition _validate_url (url : str) : bool :=
  has_scheme_and_netloc (urlparse url).

End WithUrlparse.

End Urls.
Import Urls.

(** ** The command line (cli.py) *)

Module Cli.

(** [validate_url]: [bool(result.scheme and result.netloc)], [False] when
    [urlparse] raises. *)
Definition validate_url (urlparse : str -> url_parts) (url : str) : bool :=
  match urlparse url with
  | Parts scheme netloc => truthy (py_and scheme netloc)
  | ParseError => false
  end.

(** The parsed arguments [args.url], [args.language], [args.verbose]. *)
Record args : Type := { url : str; language : str; verbose : bool }.

(** How [main] ends: it returns after [print(subtitles)] (exit status 0),
    or [exit_with_error] is called.  [error_line] is the line [print_error]
    writes to standard error; what the loggers write there is not part of
    the model. *)
Inductive ending : Type :=
| Printed (stdout : str)
| Exit (code : nat) (error_line : str).

(** What [print(subtitles)] comes to: it returns, or it raises an
    exception whose [str(e)] is [message] (an encoding error, a closed
    pipe). *)
Inductive written : Type :=
| Written
| WriteFailed (message : str).

Section WithNetwork.

Variable World : Type.
Variable urlopen : str -> World -> fetched * World.
Variable extract_info : str -> str -> World -> lookup * World.
Variable urlparse : str -> url_parts.
Variable print_out : str -> World -> written * World.

(** [exit_with_error(message, exit_code)]: [Error: message] and a newline on
    standard error, then [sys.exit(exit_code)]. *)
Definition exit_with_error (message : str) (exit_code : nat) : ending :=
  Exit exit_code (lit "Error: " ++ message ++ [NL]).

(** [print(subtitles)] inside the [try] block. *)
Definition print_subtitles (subtitles : str) : M World written :=
  fun st =>
    let (r, w) := print_out subtitles (world st) in
    (r, {| world := w; opened := opened st |}).

(** [main] after argument parsing.  [extract_subtitles] raises nothing;
    [SystemExit] is not an [Exception] and leaves the [try] block; what
    [print] raises is caught by [except Exception].  A [KeyboardInterrupt]
    sent from the terminal is outside the model. *)
Definition main (a : args) : M World ending :=
  fun st =>
    if negb (validate_url urlparse (url a))
    then (exit_with_error (lit "Invalid URL format: " ++ url a) 2, st)
    else
      let (subtitles, st') :=
        extract_subtitles urlopen extract_info (_validate_url urlparse)
          (url a) (language a) st in
      if negb (truthy subtitles)
      then (exit_with_error
              (lit "No subtitles found for language '" ++ language a
               ++ lit "' at " ++ url a) 1, st')
      else
        match print_subtitles subtitles st' with
        | (Written, st'') => (Printed (subtitles ++ [NL]), st'')
        | (WriteFailed message, st'') =>
            (exit_with_error (lit "Failed to extract subtitles: " ++ message) 1,
             st'')
        end.

End WithNetwork.

End Cli.

(** ** The HTTP endpoint (api.py) *)

Module Api.

(** The outcome of a field validator: the value to store, or
    [ValueError(message)]. *)
Inductive checked (A : Type) : Type :=
| Valid (a : A)
| Invalid_field (message : str).

Arguments Valid {A} a.
Arguments Invalid_field {A} message.

(** [SubtitleRequest.validate_url] *)
Definition validate_url (urlparse : str -> url_parts) (v : str) : checked str :=
  if negb (truthy v) || negb (truthy (strip v))
  then Invalid_field (lit "URL cannot be empty")
  else if has_scheme_and_netloc (urlparse (strip v))
       then Valid (strip v)
       else Invalid_field (lit "Invalid URL format").

(** A validated request. *)
Record SubtitleRequest : Type := { url : str; language : str }.

(** What the endpoint gives: the response model (status 200) or
    [HTTPException(status_code, detail)]. *)
Inductive reply : Type :=
| SubtitleResponse (subtitles language : str)
| HTTPException (status_code : nat) (detail : str).

(** What a call inside the [try] block of the endpoint can raise. *)
Inductive raised : Type :=
| RaisedHTTP (status_code : nat) (detail : str)
| RaisedValueError (message : str)
| RaisedConnectionError
| RaisedOther.

Inductive outcome (A : Type) : Type :=
| Returned (a : A)
| Raised (e : raised).

Arguments Returned {A} a.
Arguments Raised {A} e.

Section WithNetwork.

Variable World : Type.
Variable urlopen : str -> World -> fetched * World.
Variable extract_info : str -> str -> World -> lookup * World.
Variable urlparse : str -> url_parts.

(** [run_subtitle_extraction]: the call of [extract_subtitles]; what it
    raises is logged and raised again. *)
Definition run_subtitle_extraction (video_url lang : str)
    : M World (outcome str) :=
  fun st =>
    let (text, st') :=
      extract_subtitles urlopen extract_info (_validate_url urlparse)
        video_url lang st in
    (Returned text, st').

(** [extract_subtitles_endpoint], once the API key and the request fields
    have been checked. *)
Definition extract_subtitles_endpoint (request : SubtitleRequest)
    : M World reply :=
  fun st =>
    match run_subtitle_extraction (url request) (language request) st with
    | (Returned subtitles, st') =>
        if negb (truthy subtitles) || PyStr.eqb (strip subtitles) []
        then (HTTPException 404
                (lit "No subtitles found for the provided URL in language '"
                 ++ language request ++ lit "'"), st')
        else (SubtitleResponse subtitles (language request), st')
    | (Raised (RaisedHTTP code detail), st') => (HTTPException code detail, st')
    | (Raised (RaisedValueError message), st') =>
        (HTTPException 400 (lit "Invalid request: " ++ message), st')
    | (Raised RaisedConnectionError, st') =>
        (HTTPException 500
           (lit "Network error occurred while processing the request"), st')
    | (Raised RaisedOther, st') =>
        (HTTPException 500
           (lit "An unexpected error occurred while processing the request"),
         st')
    end.

End WithNetwork.

End Api.

(** * Vocabulary of the results *)

(** ** Resolution order *)

(** The format list [_get_subtitle_from_info] downloads for a language: the
    exact key, else the first key that starts with the language and a
    hyphen, else the first key of the mapping. *)
Definition pick (subtitle_dict : catalog) (language : str)
    : option (list format_info) :=
  match dict_get subtitle_dict language with
  | Some formats => Some formats
  | None =>
      match first_variant subtitle_dict language with
      | Some formats => Some formats
      | None =>
          match subtitle_dict with
          | (_, formats) :: _ => Some formats
          | [] => None
          end
      end
  end.

Definition first_formats (d : catalog) : option (list format_info) :=
  match d with
  | (_, formats) :: _ => Some formats
  | [] => None
  end.

Fixpoint present {A : Type} (l : list (option A)) : list A :=
  match l with
  | [] => []
  | Some a :: l' => a :: present l'
  | None :: l' => present l'
  end.

(** The format lists the resolver goes through, in order: a function of the
    two mappings and the language only. *)
Definition candidates (subtitles automatic_captions : catalog) (language : str)
    : list (list format_info) :=
  present [ pick subtitles language; pick automatic_captions language;
            first_formats subtitles; first_formats automatic_captions ].

Section Attempts.

Variable World : Type.
Variable urlopen : str -> World -> fetched * World.

(** Download each format list in turn until one gives non-empty content. *)
Fixpoint try_each (lists : list (list format_info)) : M World (option str) :=
  match lists with
  | [] => fun st => (None, st)
  | formats :: rest =>
      or_else (_download_subtitle_content urlopen formats) (try_each rest)
  end.

Definition attempt (o : option (list format_info)) (next : M World (option str))
    : M World (option str) :=
  match o with
  | Some formats => or_else (_download_subtitle_content urlopen formats) next
  | None => next
  end.

End Attempts.

(** ** Download outcomes *)

(** A format the download step gets nothing from: no location, an empty
    location, or a location whose retrieval always raises. *)
Definition fails (World : Type) (urlopen : str -> World -> fetched * World)
    (f : format_info) : Prop :=
  match url f with
  | Some u => u = [] \/ forall w, fst (urlopen u w) = Failed
  | None => True
  end.

(** The locations the download step opens when every format fails. *)
Fixpoint tried (formats : list format_info) : list str :=
  match formats with
  | [] => []
  | f :: rest =>
      match url f with
      | Some (c :: u) => (c :: u) :: tried rest
      | _ => tried rest
      end
  end.

(** The location whose payload a run returned: the last one it opened. *)
Definition served_from (World : Type) (r : option str * state World)
    : option str :=
  match fst r with
  | Some _ => last (map Some (opened (snd r))) None
  | None => None
  end.

(** ** Matching *)

(** [re.search(r, s) is not None] *)
Fixpoint matches_in (r : re) (prev : option N) (s : str) : bool :=
  match match_here r prev s with
  | Some _ => true
  | None =>
      match s with
      | [] => false
      | x :: s' => matches_in r (Some x) s'
      end
  end.

Section CharProperty.

(** A property of characters that the subject satisfies everywhere. *)
Variable P : N -> Prop.

Definition caps_ok (cs : caps) : Prop := Forall (fun c => Forall P (snd c)) cs.

(** Whatever the continuation is given satisfies [P]; [Q] is what is known
    of its results. *)
Definition cont_ok (Q : str * caps -> Prop) (k : cont) : Prop :=
  forall p s cs res,
    Forall P s -> caps_ok cs -> k p s cs = Some res -> Q res.

(** The literal characters of a template satisfy [P]. *)
Definition template_ok (t : list titem) : Prop :=
  forall c, In (TLit c) t -> P c.

End CharProperty.

Section CharClass.

(** A class of characters the subject is free of. *)
Variable Q : N -> Prop.

Definition free (s : str) : Prop := Forall (fun c => ~ Q c) s.

(** Every match of the expression holds a character of the class. *)
Fixpoint needs (r : re) : Prop :=
  match r with
  | Eps | Bol _ | Eol _ => False
  | Chr c => forall x, c x = true -> Q x
  | Seq r1 r2 => needs r1 \/ needs r2
  | Alt r1 r2 => needs r1 /\ needs r2
  | Rep _ lo c => 1 <= lo /\ forall x, c x = true -> Q x
  | Grp _ r' => needs r'
  end.

(** The continuation fails on every subject free of the class. *)
Definition dead (k : cont) : Prop :=
  forall p s cs, free s -> k p s cs = None.

End CharClass.

(** ** The markup branch *)

(** No bracket, brace, comma or quote. *)
Definition artifact_free (s : str) : Prop :=
  Forall (fun c => oneof Pat.artifact_chars c = false) s.

(** The payload is handled by lines 310-365: it does not look like JSON, or
    the [try] block neither returns nor raises. *)
Definition markup_handled (subtitle_content : str) : Prop :=
  (if looks_like_json subtitle_content
   then json_branch subtitle_content else None) = None.

(** The text that reaches the two comma substitutions of the markup
    branch. *)
Definition before_commas (subtitle_content : str) : str :=
  Clean.space_sentences
    (Clean.flatten (Clean.collect_lines (Clean.strip_markup subtitle_content))).

(** ** Clean text *)

Module CleanText.

(** A character that no pass of the normalizer touches on its own: a plain
    space or a character that is not whitespace, and none of the bracket,
    brace, comma, quote, [<] and colon characters. *)
Definition plain (c : N) : bool :=
  ((c =? 32)%N || negb (isspace c))
  && negb (oneof Pat.artifact_chars c)
  && negb (c =? 60)%N && negb (c =? 58)%N.

(** Two neighbours with normal spacing: whitespace is followed neither by
    whitespace nor by [.], [!] or [?], and each of these is followed by
    whitespace. *)
Definition pair_ok (a b : N) : bool :=
  negb (isspace a && (isspace b || Pat.sentence_end b))
  && (negb (Pat.sentence_end a) || isspace b).

Fixpoint pairs_ok (s : str) : bool :=
  match s with
  | a :: (b :: _) as rest => pair_ok a b && pairs_ok rest
  | _ => true
  end.

(** The first character exists and is not whitespace. *)
Definition starts_with_text (s : str) : bool :=
  match s with
  | c :: _ => negb (isspace c)
  | [] => false
  end.

Definition no_token (s : str) : bool :=
  negb (contains (lit "wsWinStyles") s)
  && negb (contains (lit "wpWinPositions") s)
  && negb (contains (lit "events") s).

(** Already-clean single-line text. *)
Definition is_clean (s : str) : bool :=
  forallb plain s
  && starts_with_text s && starts_with_text (rev s)
  && pairs_ok s
  && no_token s
  && existsb (fun c => negb (isdecimal c)) s.

End CleanText.
Import CleanText.

(** ** The scanner *)

(** The result of a parse step is within budget and shorter than its
    input. *)
Definition shrinks (A : Type) (s : str) (r : parsed A) : Prop :=
  r <> Exhausted /\ forall v rest, r = Parsed v rest -> List.length rest < List.length s.

(** ** Fixtures *)

(** A network that answers from a fixed table and fails elsewhere. *)
Definition table_net (t : list (str * str)) : str -> unit -> fetched * unit :=
  fun u w =>
    (match dict_get t u with Some c => Content c | None => Failed end, w).

Definition no_lookup : str -> str -> unit -> lookup * unit :=
  fun _ _ w => (LookupFailed, w).

Definition start : state unit := {| world := tt; opened := [] |}.

Definition at_url (u : string) : format_info :=
  {| ext := lit "vtt"; url := Some (lit u) |}.

Definition en : str := lit "en".

Definition manual_loc : string := "http://cdn/manual.vtt".

Definition auto_loc : string := "http://cdn/auto.vtt".

Definition manual_en : catalog := [(en, [at_url manual_loc])].

Definition auto_en : catalog := [(en, [at_url auto_loc])].

Definition manual_fr : catalog := [(lit "fr", [at_url manual_loc])].

(** Both locations answer. *)
Definition net_up : str -> unit -> fetched * unit :=
  table_net [(lit manual_loc, lit "manual text"); (lit auto_loc, lit "auto text")].

(** The manual track cannot be retrieved, the automatic one can. *)
Definition net_manual_down : str -> unit -> fetched * unit :=
  table_net [(lit auto_loc, lit "auto text")].

(** Nothing can be retrieved. *)
Definition net_down : str -> unit -> fetched * unit := table_net [].

(** The first location answers with an empty body. *)
Definition net_empty_first : str -> unit -> fetched * unit :=
  table_net [(lit manual_loc, []); (lit auto_loc, lit "auto text")].

Definition accept_all : str -> bool := fun _ => true.

Definition no_location : format_info := {| ext := lit "srt"; url := None |}.

Definition lookup_manual_en : str -> str -> unit -> lookup * unit :=
  fun _ _ w => (Info (Some manual_en) None, w).

Definition lookup_nothing : str -> str -> unit -> lookup * unit :=
  fun _ _ w => (Info (Some []) (Some []), w).

(** A word between double quotes. *)
Definition quoted (w : string) : str := [DQ] ++ lit w ++ [DQ].

(** [WEBVTT\n\n00:00:01.000 --> 00:00:02.000\n<b>Hi</b> , world\n] *)
Definition vtt_sample : str :=
  lit "WEBVTT" ++ [NL; NL] ++ lit "00:00:01.000 --> 00:00:02.000" ++ [NL]
  ++ lit "<b>Hi</b> , world" ++ [NL].

(** The caption events of the JSON scenario, with two events of one segment
    each. *)
Definition json_sample : str :=
  lit "{" ++ quoted "events" ++ lit ":[{" ++ quoted "segs" ++ lit ":[{"
  ++ quoted "utf8" ++ lit ":" ++ quoted "Hello" ++ lit "}]}, {"
  ++ quoted "segs" ++ lit ":[{" ++ quoted "utf8" ++ lit ":" ++ quoted "world."
  ++ lit "}]}]}".

(** An object whose [events] member is a number. *)
Definition json_events_number : str :=
  lit "{" ++ quoted "events" ++ lit ": 5}".

Definition clean_sample : str := lit "Hello there. Goodbye!".

(** ** Spacing of the result *)

(** Whitespace other than the plain space: tabs, line breaks and the
    like. *)
Definition odd_space (c : N) : bool := isspace c && negb (c =? 32)%N.

Definition starts_with_space (s : str) : bool :=
  match s with
  | c :: _ => isspace c
  | [] => false
  end.

(** No two whitespace characters in a row. *)
Fixpoint single_spaced (s : str) : bool :=
  match s with
  | [] => true
  | a :: rest => negb (isspace a && starts_with_space rest) && single_spaced rest
  end.

(** Normal spacing: the only whitespace is the plain space, it never comes
    twice in a row, and it is neither the first nor the last character. *)
Definition normal_spacing (s : str) : bool :=
  forallb (fun c => negb (odd_space c)) s
  && single_spaced s
  && negb (starts_with_space s)
  && negb (starts_with_space (rev s)).

(** Every run of whitespace replaced by one plain space; [inside] tells
    that the character before was whitespace. *)
Fixpoint squeeze (inside : bool) (s : str) : str :=
  match s with
  | [] => []
  | c :: s' =>
      if isspace c
      then if inside then squeeze true s' else 32%N :: squeeze true s'
      else c :: squeeze false s'
  end.

(** The code points [str.isspace] accepts. *)
Definition whitespace : list N :=
  [ 9; 10; 11; 12; 13; 28; 29; 30; 31; 32; 133; 160; 5760; 8192; 8193; 8194;
    8195; 8196; 8197; 8198; 8199; 8200; 8201; 8202; 8232; 8233; 8239; 8287;
    12288 ]%N.

(** ** Exceptions of the event walk *)

(** A computation that raises nothing but [TypeError]. *)
Definition only_type_error (A : Type) (r : result A) : Prop :=
  forall e, r = Raise e -> e = TypeError.

(** ** Locations *)

(** The locations a mapping lists, in order. *)
Definition locations (d : catalog) : list str :=
  List.concat (map (fun entry => tried (snd entry)) d).

(** ** A parser for the examples *)

(** Splits [scheme://netloc/...] at the first [://] and the next [/]; an
    address without [://] has neither part.  Enough of [urlparse] for the
    addresses of the examples. *)
Fixpoint before_slash (s : str) : str :=
  match s with
  | [] => []
  | c :: s' => if (c =? 47)%N then [] else c :: before_slash s'
  end.

Fixpoint split_scheme (s : str) : option (str * str) :=
  match s with
  | [] => None
  | c :: s' =>
      if startswith (lit "://") s then Some ([], skipn 3 s)
      else match split_scheme s' with
           | Some (scheme, rest) => Some (c :: scheme, rest)
           | None => None
           end
  end.

Definition example_urlparse (u : str) : url_parts :=
  match split_scheme u with
  | Some (scheme, rest) => Parts scheme (before_slash rest)
  | None => Parts [] []
  end.

(** ** Lines *)

(** The class of [special_line]: whitespace, the artifact characters and
    the colon. *)
Definition special (c : N) : bool :=
  isspace c || oneof (Pat.artifact_chars ++ lit ":") c.

(** ** Caption data of the usual shape *)

(** The parts collected from a list of items, when every item is of the
    expected shape. *)
Fixpoint gather (A : Type) (f : A -> option (list str)) (items : list A)
    : option (list str) :=
  match items with
  | [] => Some []
  | x :: rest =>
      match f x, gather f rest with
      | Some a, Some b => Some (a ++ b)
      | _, _ => None
      end
  end.

(** A segment: a dict whose [utf8] member, if any, is a string. *)
Definition seg_texts (seg : json) : option (list str) :=
  match seg with
  | JObj d =>
      match dict_get d (lit "utf8") with
      | Some (JStr s) => Some [s]
      | Some _ => None
      | None => Some []
      end
  | _ => None
  end.

(** An event: a dict whose [segs] member, if any, is a list of segments. *)
Definition event_texts (event : json) : option (list str) :=
  match event with
  | JObj d =>
      match dict_get d (lit "segs") with
      | Some (JArr segs) => gather seg_texts segs
      | Some _ => None
      | None => Some []
      end
  | _ => None
  end.

(** Caption data: a dict whose [events] member is a list of events.  The
    result is the [utf8] strings in document order. *)
Definition caption_texts (data : json) : option (list str) :=
  match data with
  | JObj d =>
      match dict_get d (lit "events") with
      | Some (JArr events) => gather event_texts events
      | _ => None
      end
  | _ => None
  end.

(** ** Payloads and loaders for the examples on exceptions *)

(** An object whose [events] member is an integer of 4301 digits. *)
Definition json_long_integer : str :=
  lit "{" ++ quoted "events" ++ lit ": " ++ repeat 49%N 4301 ++ lit "}".

(** A [json.loads] that finds every input nested too deeply. *)
Definition too_deep : str -> result json := fun _ => Raise RecursionError.

(** ** Tactics *)

Ltac char_needed :=
  let x := fresh "x" in
  let Hx := fresh "Hx" in
  intros x Hx; apply N.eqb_eq in Hx; exact Hx.

Ltac search_needed :=
  first [ solve [char_needed]
        | solve [left; search_needed]
        | solve [right; search_needed] ].

Ltac find_needed := cbn; search_needed.

(** * Results *)

(** ** Track resolution: results *)

Lemma eqb_refl (s : str) : PyStr.eqb s s = true.
Proof.
  induction s as [|c s IH]; simpl; [reflexivity|].
  rewrite N.eqb_refl. exact IH.
Qed.

Lemma eqb_eq (a b : str) : PyStr.eqb a b = true <-> a = b.
Proof.
  split.
  - revert b. induction a as [|x a IH]; destruct b as [|y b]; simpl;
      try discriminate; [reflexivity|].
    intros H. apply andb_prop in H. destruct H as [H1 H2].
    apply N.eqb_eq in H1. subst y. f_equal. apply IH. exact H2.
  - intros ->. apply eqb_refl.
Qed.

Section Resolution.

Variable World : Type.
Variable urlopen : str -> World -> fetched * World.

Local Abbreviation download := (_download_subtitle_content urlopen).
Local Abbreviation get_from := (_get_subtitle_from_info urlopen).
Local Abbreviation resolve := (_resolve_subtitle_priority urlopen).

Lemma get_from_pick (d : catalog) (language : str) :
  get_from d language =
  match pick d language with
  | Some formats => download formats
  | None => fun st => (None, st)
  end.
Proof.
  unfold _get_subtitle_from_info, pick.
  destruct (dict_get d language); [reflexivity|].
  destruct (first_variant d language); [reflexivity|].
  destruct d as [|[k f] d]; reflexivity.
Qed.

Lemma pick_first (k : str) (formats : list format_info) (d : catalog) :
  pick ((k, formats) :: d) k = Some formats.
Proof. unfold pick. simpl. rewrite eqb_refl. reflexivity. Qed.

Lemma or_else_nothing (next : M World (option str)) (st : state World) :
  or_else (fun st => (None, st)) next st = next st.
Proof. reflexivity. Qed.

Lemma or_else_found (first next : M World (option str)) (st st' : state World)
    (c : str) :
  first st = (Some c, st') -> c <> [] -> or_else first next st = (Some c, st').
Proof.
  intros H Hc. unfold or_else. rewrite H.
  destruct c; [contradiction|reflexivity].
Qed.

Lemma try_first_language_pick (d : catalog) (next : M World (option str))
    (st : state World) :
  try_first_language urlopen d next st =
  match first_formats d with
  | Some formats => or_else (download formats) next st
  | None => next st
  end.
Proof.
  destruct d as [|[k f] d]; simpl; [reflexivity|].
  rewrite get_from_pick, pick_first. reflexivity.
Qed.

Lemma or_else_ext (first next1 next2 : M World (option str)) (st : state World) :
  (forall st', next1 st' = next2 st') ->
  or_else first next1 st = or_else first next2 st.
Proof.
  intros H. unfold or_else. destruct (first st) as [c st'].
  destruct (content_truthy c); [reflexivity|apply H].
Qed.

Lemma try_each_present (o : option (list format_info))
    (l : list (option (list format_info))) (st : state World) :
  try_each urlopen (present (o :: l)) st = attempt urlopen o (try_each urlopen (present l)) st.
Proof. destruct o; reflexivity. Qed.

Lemma attempt_ext (o : option (list format_info))
    (next1 next2 : M World (option str)) (st : state World) :
  (forall st', next1 st' = next2 st') -> attempt urlopen o next1 st = attempt urlopen o next2 st.
Proof.
  intros H. destruct o; simpl; [apply or_else_ext; exact H|apply H].
Qed.

Lemma get_from_attempt (d : catalog) (language : str)
    (next : M World (option str)) (st : state World) :
  or_else (get_from d language) next st = attempt urlopen (pick d language) next st.
Proof.
  rewrite get_from_pick. destruct (pick d language); reflexivity.
Qed.

Lemma try_first_language_attempt (d : catalog) (next : M World (option str))
    (st : state World) :
  try_first_language urlopen d next st = attempt urlopen (first_formats d) next st.
Proof.
  rewrite try_first_language_pick. destruct (first_formats d); reflexivity.
Qed.

Lemma resolve_try_each (subtitles automatic_captions : catalog) (language : str)
    (st : state World) :
  resolve subtitles automatic_captions language st =
  try_each urlopen (candidates subtitles automatic_captions language) st.
Proof.
  unfold _resolve_subtitle_priority, candidates.
  rewrite get_from_attempt, try_each_present.
  apply attempt_ext. intros st1.
  rewrite get_from_attempt, try_each_present.
  apply attempt_ext. intros st2.
  rewrite try_first_language_attempt, try_each_present.
  apply attempt_ext. intros st3.
  rewrite try_first_language_attempt, try_each_present.
  apply attempt_ext. intros st4. reflexivity.
Qed.

End Resolution.

(** ** Download and pipeline: results *)

Section Pipeline.

Variable World : Type.
Variable urlopen : str -> World -> fetched * World.
Variable extract_info : str -> str -> World -> lookup * World.
Variable valid_url : str -> bool.

Local Abbreviation download := (_download_subtitle_content urlopen).
Local Abbreviation get_from := (_get_subtitle_from_info urlopen).
Local Abbreviation resolve := (_resolve_subtitle_priority urlopen).

Lemma download_failing (formats : list format_info) (st : state World) :
  Forall (fails urlopen) formats ->
  fst (download formats st) = None /\
  opened (snd (download formats st)) = opened st ++ tried formats.
Proof.
  intros H. revert st. induction H as [|f rest Hf _ IH]; intros st; simpl.
  - rewrite app_nil_r. split; reflexivity.
  - unfold fails in Hf. destruct (url f) as [[|c u]|]; simpl; try apply IH.
    destruct Hf as [Hf|Hf]; [discriminate|].
    unfold open_url. specialize (Hf (world st)).
    destruct (urlopen (c :: u) (world st)) as [r w]. simpl in Hf. subst r.
    destruct (IH {| world := w; opened := opened st ++ [c :: u] |}) as [H1 H2].
    split; [exact H1|]. etransitivity; [exact H2|].
    simpl. rewrite <- app_assoc. reflexivity.
Qed.

Lemma download_after_failing (before after : list format_info) (f : format_info)
    (u c : str) (st : state World) :
  Forall (fails urlopen) before ->
  url f = Some u -> u <> [] ->
  (forall w, fst (urlopen u w) = Content c) ->
  fst (download (before ++ f :: after) st) = Some c /\
  opened (snd (download (before ++ f :: after) st)) =
    opened st ++ tried before ++ [u].
Proof.
  intros H Hu Hne Hc. revert st.
  induction H as [|b rest Hb _ IH]; intros st; simpl.
  - rewrite Hu. destruct u as [|x u]; [contradiction|]. simpl.
    unfold open_url. specialize (Hc (world st)).
    destruct (urlopen (x :: u) (world st)) as [r w]. simpl in Hc. subst r.
    simpl. split; reflexivity.
  - unfold fails in Hb. destruct (url b) as [[|y v]|]; simpl; try apply IH.
    destruct Hb as [Hb|Hb]; [discriminate|].
    unfold open_url. specialize (Hb (world st)).
    destruct (urlopen (y :: v) (world st)) as [r w]. simpl in Hb. subst r.
    destruct (IH {| world := w; opened := opened st ++ [y :: v] |}) as [H1 H2].
    split; [exact H1|]. etransitivity; [exact H2|].
    simpl. rewrite <- app_assoc. reflexivity.
Qed.

Lemma all_fail (formats : list format_info) :
  (forall u w, fst (urlopen u w) = Failed) -> Forall (fails urlopen) formats.
Proof.
  intros H. apply Forall_forall. intros f _. unfold fails.
  destruct (url f); [right; intros w; apply H|exact I].
Qed.

Lemma try_each_all_fail (lists : list (list format_info)) (st : state World) :
  (forall u w, fst (urlopen u w) = Failed) ->
  fst (try_each urlopen lists st) = None.
Proof.
  intros H. revert st. induction lists as [|l lists IH]; intros st; simpl.
  - reflexivity.
  - unfold or_else.
    pose proof (download_failing st (all_fail l H)) as [H1 _].
    destruct (download l st) as [c st']. simpl in H1. subst c. simpl. apply IH.
Qed.

Lemma extract_content_all_fail (video_url language : str) (st : state World) :
  (forall u w, fst (urlopen u w) = Failed) ->
  fst (_extract_subtitle_content urlopen extract_info video_url language st) = None.
Proof.
  intros H. unfold _extract_subtitle_content.
  destruct (extract_info video_url language (world st)) as [[subs autos|] w].
  - rewrite resolve_try_each. apply try_each_all_fail. exact H.
  - reflexivity.
Qed.

Lemma extract_subtitles_nothing (video_url language : str) (st : state World) :
  fst (_extract_subtitle_content urlopen extract_info video_url language st) = None ->
  fst (extract_subtitles urlopen extract_info valid_url video_url language st) = [].
Proof.
  intros H. unfold extract_subtitles.
  destruct (valid_url video_url); [|reflexivity].
  destruct (_extract_subtitle_content urlopen extract_info video_url language st)
    as [c st'].
  simpl in H. subst c. reflexivity.
Qed.

End Pipeline.

(** ** Claims on track selection *)

(** C1 (as stated, refuted): with the same catalog and language, the track
    whose payload is returned differs between a network on which the manual
    track can be retrieved and one on which it cannot. *)
Lemma selection_depends_on_fetch :
  served_from (_resolve_subtitle_priority net_up manual_en auto_en en start)
  <> served_from
       (_resolve_subtitle_priority net_manual_down manual_en auto_en en start).
Proof. vm_compute. discriminate. Qed.

(** C1 (amended): the order in which format lists are tried is a function
    of the two mappings and the language alone ([candidates]); the resolver
    downloads them in that order and returns the first non-empty payload,
    for every network and every state of it. *)
Theorem resolve_follows_candidates :
  forall (World : Type) (urlopen : str -> World -> fetched * World)
         (subtitles automatic_captions : catalog) (language : str)
         (st : state World),
    _resolve_subtitle_priority urlopen subtitles automatic_captions language st
    = try_each urlopen (candidates subtitles automatic_captions language) st.
Proof. intros. apply resolve_try_each. Qed.

(** C2 (as stated, refuted): the manual mapping holds the exact key, yet
    the payload returned comes from the automatic track once the manual
    one cannot be retrieved. *)
Lemma manual_key_does_not_exclude_automatic :
  dict_get manual_en en = Some [at_url manual_loc] /\
  fst (_resolve_subtitle_priority net_manual_down manual_en auto_en en start)
    = Some (lit "auto text") /\
  served_from (_resolve_subtitle_priority net_manual_down manual_en auto_en en start)
    = Some (lit auto_loc).
Proof. vm_compute. repeat split. Qed.

(** C2 (amended): when the manual mapping holds the exact key and the
    download of its format list gives a non-empty payload, that payload is
    the result and the run stops there: nothing else is opened.  When that
    download gives nothing or an empty payload, the resolver goes on from
    the state the download left with the automatic captions of the
    language, and a non-empty payload found there is the result. *)
Theorem manual_exact_match_wins :
  forall (World : Type) (urlopen : str -> World -> fetched * World)
         (subtitles automatic_captions : catalog) (language : str)
         (formats : list format_info),
    dict_get subtitles language = Some formats ->
    (forall content st st',
        _download_subtitle_content urlopen formats st = (Some content, st') ->
        content <> [] ->
        _resolve_subtitle_priority urlopen subtitles automatic_captions language st
        = (Some content, st'))
    /\ (forall c st st',
        _download_subtitle_content urlopen formats st = (c, st') ->
        content_truthy c = false ->
        _resolve_subtitle_priority urlopen subtitles automatic_captions language st
        = or_else (_get_subtitle_from_info urlopen automatic_captions language)
            (try_first_language urlopen subtitles
               (try_first_language urlopen automatic_captions
                  (fun st => (None, st)))) st')
    /\ (forall c st st' content st'',
        _download_subtitle_content urlopen formats st = (c, st') ->
        content_truthy c = false ->
        _get_subtitle_from_info urlopen automatic_captions language st'
        = (Some content, st'') ->
        content <> [] ->
        _resolve_subtitle_priority urlopen subtitles automatic_captions language st
        = (Some content, st'')).
Proof.
  intros World urlopen subs autos L formats Hget.
  assert (Hnext : forall c st st',
             _download_subtitle_content urlopen formats st = (c, st') ->
             content_truthy c = false ->
             _resolve_subtitle_priority urlopen subs autos L st
             = or_else (_get_subtitle_from_info urlopen autos L)
                 (try_first_language urlopen subs
                    (try_first_language urlopen autos (fun st => (None, st))))
                 st').
  { intros c st st' Hdl Hc. unfold _resolve_subtitle_priority.
    unfold or_else at 1. unfold _get_subtitle_from_info at 1.
    rewrite Hget, Hdl, Hc. reflexivity. }
  split; [|split; [exact Hnext|]].
  - intros c st st' Hdl Hc.
    unfold _resolve_subtitle_priority. apply or_else_found; [|exact Hc].
    unfold _get_subtitle_from_info. rewrite Hget. exact Hdl.
  - intros c st st' content st'' Hdl Hc Hauto Hne.
    rewrite (Hnext c st st' Hdl Hc). apply or_else_found; assumption.
Qed.

Lemma manual_exact_match_wins_witness :
  _resolve_subtitle_priority net_up manual_en auto_en en start
  = (Some (lit "manual text"), {| world := tt; opened := [lit manual_loc] |})
  /\ _resolve_subtitle_priority net_empty_first manual_en auto_en en start
     = (Some (lit "auto text"),
        {| world := tt; opened := [lit manual_loc; lit auto_loc] |}).
Proof.
  split.
  - apply (@manual_exact_match_wins unit net_up manual_en auto_en en
             [at_url manual_loc]).
    + reflexivity.
    + reflexivity.
    + discriminate.
  - apply (proj2 (proj2 (@manual_exact_match_wins unit net_empty_first manual_en
                           auto_en en [at_url manual_loc] eq_refl))
             (Some []) start {| world := tt; opened := [lit manual_loc] |}).
    + reflexivity.
    + reflexivity.
    + reflexivity.
    + discriminate.
Defined.

(** C3 (as stated, refuted): the manual mapping is not empty, yet both the
    resolver and the per-mapping helper return [None] when the format list
    cannot be retrieved. *)
Lemma none_with_nonempty_mapping :
  manual_fr <> [] /\
  fst (_resolve_subtitle_priority net_down manual_fr [] en start) = None /\
  fst (_get_subtitle_from_info net_down manual_fr en start) = None.
Proof. split; [discriminate|split; vm_compute; reflexivity]. Qed.

(** C3 (amended): with both mappings empty the resolver returns [None], and
    so does the helper on an empty mapping; on a non-empty mapping the helper
    returns whatever the download of the picked format list returns; and
    when the manual mapping is not empty and holds neither the language nor a
    variant of it, a non-empty payload of its first format list is the
    result. *)
Theorem none_only_without_payload :
  forall (World : Type) (urlopen : str -> World -> fetched * World),
    (forall language st,
        _resolve_subtitle_priority urlopen [] [] language st = (None, st) /\
        _get_subtitle_from_info urlopen [] language st = (None, st))
    /\ (forall d language,
        d <> [] ->
        exists formats,
          pick d language = Some formats /\
          _get_subtitle_from_info urlopen d language
          = _download_subtitle_content urlopen formats)
    /\ (forall first_lang formats rest automatic_captions language content st st',
        dict_get ((first_lang, formats) :: rest) language = None ->
        first_variant ((first_lang, formats) :: rest) language = None ->
        _download_subtitle_content urlopen formats st = (Some content, st') ->
        content <> [] ->
        _resolve_subtitle_priority urlopen ((first_lang, formats) :: rest)
          automatic_captions language st = (Some content, st')).
Proof.
  intros World urlopen. split; [|split].
  - intros language st. split; reflexivity.
  - intros d language Hd. rewrite get_from_pick.
    unfold pick. destruct (dict_get d language) as [f|]; [exists f; split; reflexivity|].
    destruct (first_variant d language) as [f|]; [exists f; split; reflexivity|].
    destruct d as [|[k f] d]; [contradiction|]. exists f. split; reflexivity.
  - intros k formats rest autos L c st st' Hget Hvar Hdl Hc.
    unfold _resolve_subtitle_priority. apply or_else_found; [|exact Hc].
    unfold _get_subtitle_from_info. rewrite Hget, Hvar. exact Hdl.
Qed.

Lemma none_only_without_payload_witness :
  _resolve_subtitle_priority net_up manual_fr [] en start
  = (Some (lit "manual text"), {| world := tt; opened := [lit manual_loc] |}).
Proof.
  apply (proj2 (proj2 (@none_only_without_payload unit net_up))
           (lit "fr") [at_url manual_loc] [] [] en (lit "manual text") start
           {| world := tt; opened := [lit manual_loc] |}).
  - reflexivity.
  - reflexivity.
  - reflexivity.
  - discriminate.
Defined.

(** ** Claims on the download step and the pipeline *)

(** C5 (as stated, refuted): the first location answers with an empty body
    and the second with text; the download step returns the empty body and
    never opens the second location, although the second is the first one
    whose retrieval gives a non-empty response. *)
Lemma download_returns_empty_payload :
  _download_subtitle_content net_empty_first
    [at_url manual_loc; at_url auto_loc] start
  = (Some [], {| world := tt; opened := [lit manual_loc] |})
  /\ fst (_download_subtitle_content net_empty_first
            [at_url manual_loc; at_url auto_loc] start)
     <> Some (lit "auto text").
Proof. split; [reflexivity|vm_compute; discriminate]. Qed.

(** C5 (amended): formats are gone through in order; those without a
    location or with an empty one are skipped, and a retrieval that raises
    moves on to the next; the payload of the first retrieval that does not
    raise is returned at once, empty or not, and no later location is
    opened; when every format fails the result is [None], and when no
    retrieval succeeds the pipeline returns the empty string. *)
Theorem download_returns_first_retrieved :
  forall (World : Type) (urlopen : str -> World -> fetched * World)
         (extract_info : str -> str -> World -> lookup * World)
         (valid_url : str -> bool),
    (forall before f after u content st,
        Forall (fails urlopen) before ->
        url f = Some u -> u <> [] ->
        (forall w, fst (urlopen u w) = Content content) ->
        fst (_download_subtitle_content urlopen (before ++ f :: after) st)
          = Some content /\
        opened (snd (_download_subtitle_content urlopen (before ++ f :: after) st))
          = opened st ++ tried before ++ [u])
    /\ (forall formats st,
        Forall (fails urlopen) formats ->
        fst (_download_subtitle_content urlopen formats st) = None /\
        opened (snd (_download_subtitle_content urlopen formats st))
          = opened st ++ tried formats)
    /\ (forall video_url language st,
        (forall u w, fst (urlopen u w) = Failed) ->
        fst (extract_subtitles urlopen extract_info valid_url video_url language st)
          = []).
Proof.
  intros World urlopen extract_info valid_url. split; [|split].
  - intros before f after u c st Hb Hu Hne Hc.
    apply download_after_failing; assumption.
  - intros formats st H. apply download_failing. exact H.
  - intros video_url language st H.
    apply extract_subtitles_nothing. apply extract_content_all_fail. exact H.
Qed.

Lemma download_returns_first_retrieved_witness :
  (fst (_download_subtitle_content net_empty_first
          ([no_location] ++ at_url manual_loc :: [at_url auto_loc]) start)
     = Some [] /\
   opened (snd (_download_subtitle_content net_empty_first
                  ([no_location] ++ at_url manual_loc :: [at_url auto_loc]) start))
     = opened start ++ tried [no_location] ++ [lit manual_loc])
  /\ fst (extract_subtitles net_down lookup_manual_en accept_all
            (lit "https://video/1") en start) = [].
Proof.
  split.
  - apply (proj1 (@download_returns_first_retrieved unit net_empty_first
                    lookup_manual_en accept_all)).
    + constructor; [exact I|constructor].
    + reflexivity.
    + discriminate.
    + intros w. reflexivity.
  - apply (proj2 (proj2 (@download_returns_first_retrieved unit net_down
                           lookup_manual_en accept_all))).
    intros u w. reflexivity.
Defined.

(** C6 (the code at the failing input): when the upstream lookup raises,
    [extract_subtitles] returns the empty string, the value it also returns
    when the lookup succeeds and finds no track. *)
Theorem upstream_failure_collapses_to_empty :
  forall (World : Type) (urlopen : str -> World -> fetched * World)
         (extract_info : str -> str -> World -> lookup * World)
         (valid_url : str -> bool) (video_url language : str)
         (st : state World) (w : World),
    extract_info video_url language (world st) = (LookupFailed, w) ->
    fst (extract_subtitles urlopen extract_info valid_url video_url language st)
      = [].
Proof.
  intros World urlopen extract_info valid_url video_url language st w H.
  apply extract_subtitles_nothing.
  unfold _extract_subtitle_content. rewrite H. reflexivity.
Qed.

Lemma upstream_failure_collapses_to_empty_witness :
  fst (extract_subtitles net_up no_lookup accept_all (lit "https://video/1") en start)
    = []
  /\ fst (extract_subtitles net_up lookup_nothing accept_all
            (lit "https://video/1") en start) = [].
Proof.
  split.
  - apply (@upstream_failure_collapses_to_empty unit net_up no_lookup accept_all
             (lit "https://video/1") en start tt).
    reflexivity.
  - reflexivity.
Defined.

(** ** Claims on the normalizer: worked inputs *)

(** C4 (the code at the failing input): the payload parses as JSON, its
    [events] member is a number, the [for] loop over it raises [TypeError],
    which the [except] clause does not catch.  The empty payload gives the
    empty string. *)
Theorem clean_raises_on_numeric_events :
  loads json_events_number = Parsed (JObj [(lit "events", JNum (lit "5"))]) []
  /\ _clean_subtitle_text json_events_number = Raise TypeError
  /\ _clean_subtitle_text [] = Ok [].
Proof. repeat split; vm_compute; reflexivity. Qed.

(** C7 (the code at the failing input): the header, the cue timing and the
    tag are removed, and so is the comma. *)
Theorem vtt_sample_loses_comma :
  _clean_subtitle_text vtt_sample = Ok (lit "Hi world")
  /\ _clean_subtitle_text vtt_sample <> Ok (lit "Hi, world").
Proof. split; vm_compute; [reflexivity|discriminate]. Qed.

(** C8: the JSON caption payload of the scenario is detected as JSON, its
    [utf8] segments are collected in order, and the result is
    [Hello world.] *)
Theorem json_sample_normalized :
  looks_like_json json_sample = true
  /\ loads json_sample
     = Parsed
         (JObj [(lit "events",
                 JArr [JObj [(lit "segs", JArr [JObj [(lit "utf8", JStr (lit "Hello"))]])];
                       JObj [(lit "segs", JArr [JObj [(lit "utf8", JStr (lit "world."))]])]])])
         []
  /\ _clean_subtitle_text json_sample = Ok (lit "Hello world.").
Proof. repeat split; vm_compute; reflexivity. Qed.

(** ** Facts on the matcher *)

Lemma sub_from_nil (r : re) (t : list titem) (prev : option N) :
  sub_from r t prev [] 0 =
  match match_here r prev [] with
  | Some (_, cs) => expand t cs
  | None => []
  end.
Proof. reflexivity. Qed.

Lemma sub_from_cons (r : re) (t : list titem) (prev : option N) (x : N) (s : str) :
  sub_from r t prev (x :: s) 0 =
  match match_here r prev (x :: s) with
  | Some (rest, cs) =>
      match List.length (x :: s) - List.length rest with
      | 0 => expand t cs ++ x :: sub_from r t (Some x) s 0
      | S n => expand t cs ++ sub_from r t (Some x) s n
      end
  | None => x :: sub_from r t (Some x) s 0
  end.
Proof. reflexivity. Qed.

Lemma sub_from_skip (r : re) (t : list titem) (prev : option N) (x : N) (s : str)
    (n : nat) :
  sub_from r t prev (x :: s) (S n) = sub_from r t (Some x) s n.
Proof. reflexivity. Qed.

Lemma expand_space (cs : caps) (tail : str) :
  expand Pat.t_space cs ++ tail = 32%N :: tail.
Proof. reflexivity. Qed.

Section Preservation.

Variable P : N -> Prop.

Lemma firstn_ok (n : nat) (s : str) : Forall P s -> Forall P (firstn n s).
Proof.
  intros H. revert n. induction H as [|x s Hx Hs IH]; intros [|n]; simpl;
    constructor; [exact Hx|apply IH].
Qed.

Lemma rep_ok (Q : str * caps -> Prop) (g : bool) (c : cset) (k : cont) :
  cont_ok P Q k ->
  forall s lo prev cs res,
    Forall P s -> caps_ok P cs -> rep g c lo prev s cs k = Some res -> Q res.
Proof.
  intros Hk. induction s as [|x s IH]; intros lo prev cs res Hs Hcs H.
  - simpl in H. destruct lo; destruct g; try discriminate.
    + exact (Hk _ _ _ _ Hs Hcs H).
    + destruct (k prev [] cs) as [r1|] eqn:E; [|discriminate].
      inversion H; subst. exact (Hk _ _ _ _ Hs Hcs E).
  - inversion Hs as [|? ? Hx Hs']; subst. simpl in H.
    destruct g.
    + destruct (c x).
      * destruct (rep true c (pred lo) (Some x) s cs k) as [r1|] eqn:E.
        -- inversion H; subst. exact (IH _ _ _ _ Hs' Hcs E).
        -- destruct lo; [exact (Hk _ _ _ _ Hs Hcs H)|discriminate].
      * destruct lo; [exact (Hk _ _ _ _ Hs Hcs H)|discriminate].
    + destruct lo.
      * destruct (k prev (x :: s) cs) as [r1|] eqn:E.
        -- inversion H; subst. exact (Hk _ _ _ _ Hs Hcs E).
        -- destruct (c x); [exact (IH _ _ _ _ Hs' Hcs H)|discriminate].
      * destruct (c x); [exact (IH _ _ _ _ Hs' Hcs H)|discriminate].
Qed.

Lemma run_ok (r : re) :
  forall (Q : str * caps -> Prop) (k : cont),
    cont_ok P Q k ->
    forall prev s cs res,
      Forall P s -> caps_ok P cs -> run r prev s cs k = Some res -> Q res.
Proof.
  induction r as [|c|r1 IH1 r2 IH2|r1 IH1 r2 IH2|g lo c|m|m|i r IH];
    intros Q k Hk prev s cs res Hs Hcs H; simpl in H.
  - exact (Hk _ _ _ _ Hs Hcs H).
  - destruct s as [|x s]; [discriminate|].
    inversion Hs; subst.
    destruct (c x); [|discriminate]. eapply Hk; [| |exact H]; assumption.
  - refine (IH1 Q (fun p s' cs' => run r2 p s' cs' k) _ _ _ _ _ Hs Hcs H).
    intros p s' cs' res' Hs' Hcs' H'. exact (IH2 Q k Hk _ _ _ _ Hs' Hcs' H').
  - destruct (run r1 prev s cs k) as [a|] eqn:E.
    + inversion H; subst. exact (IH1 Q k Hk _ _ _ _ Hs Hcs E).
    + exact (IH2 Q k Hk _ _ _ _ Hs Hcs H).
  - eapply rep_ok; [exact Hk|exact Hs|exact Hcs|exact H].
  - destruct (at_bol m prev); [exact (Hk _ _ _ _ Hs Hcs H)|discriminate].
  - destruct (at_eol m s); [exact (Hk _ _ _ _ Hs Hcs H)|discriminate].
  - refine (IH Q (fun p s' cs' =>
                    k p s' ((i, firstn (List.length s - List.length s') s) :: cs'))
              _ _ _ _ _ Hs Hcs H).
    intros p s' cs' res' Hs' Hcs' H'. eapply Hk; [exact Hs'| |exact H'].
    constructor; [|exact Hcs']. simpl. apply firstn_ok. exact Hs.
Qed.

Lemma match_here_ok (r : re) (prev : option N) (s rest : str) (cs : caps) :
  Forall P s -> match_here r prev s = Some (rest, cs) -> caps_ok P cs.
Proof.
  intros Hs H. unfold match_here in H.
  assert (Hk : cont_ok P (fun res => caps_ok P (snd res)) accept).
  { intros p s' cs' res' _ Hcs' H'. unfold accept in H'.
    inversion H'; subst. exact Hcs'. }
  assert (H0 : caps_ok P []) by constructor.
  exact (@run_ok r _ accept Hk prev s [] (rest, cs) Hs H0 H).
Qed.

Lemma group_ok (i : nat) (cs : caps) : caps_ok P cs -> Forall P (group i cs).
Proof.
  induction 1 as [|[j v] cs Hv _ IH]; simpl; [constructor|].
  destruct (Nat.eqb i j); [exact Hv|exact IH].
Qed.

Lemma expand_ok (t : list titem) (cs : caps) :
  template_ok P t -> caps_ok P cs -> Forall P (expand t cs).
Proof.
  intros Ht Hcs. induction t as [|[c|i] t IH]; simpl.
  - constructor.
  - constructor; [apply Ht; left; reflexivity|].
    apply IH. intros c' Hc'. apply Ht. right. exact Hc'.
  - apply Forall_app. split; [apply group_ok; exact Hcs|].
    apply IH. intros c' Hc'. apply Ht. right. exact Hc'.
Qed.

Lemma sub_from_ok (r : re) (t : list titem) :
  template_ok P t ->
  forall s prev skip, Forall P s -> Forall P (sub_from r t prev s skip).
Proof.
  intros Ht. induction s as [|x s IH]; intros prev skip Hs.
  - destruct skip; [|constructor]. rewrite sub_from_nil.
    destruct (match_here r prev []) as [[rest cs]|] eqn:E; [|constructor].
    apply expand_ok; [exact Ht|]. eapply match_here_ok; [|exact E]; exact Hs.
  - inversion Hs as [|? ? Hx Hs']; subst.
    destruct skip; [|apply IH; exact Hs']. rewrite sub_from_cons.
    destruct (match_here r prev (x :: s)) as [[rest cs]|] eqn:E.
    + assert (Hcs : caps_ok P cs) by (eapply match_here_ok; [|exact E]; exact Hs).
      generalize (List.length (x :: s) - List.length rest). intros [|n].
      * apply Forall_app. split; [apply expand_ok; assumption|].
        constructor; [exact Hx|apply IH; exact Hs'].
      * apply Forall_app. split; [apply expand_ok; assumption|].
        apply IH; exact Hs'.
    + constructor; [exact Hx|apply IH; exact Hs'].
Qed.

(** [re.sub] keeps a property of characters that its subject and the
    literal part of its template have. *)
Lemma sub_ok (r : re) (t : list titem) (s : str) :
  template_ok P t -> Forall P s -> Forall P (sub r t s).
Proof. intros Ht Hs. apply sub_from_ok; assumption. Qed.

Lemma lstrip_ok (s : str) : Forall P s -> Forall P (lstrip s).
Proof.
  induction 1 as [|x s Hx Hs IH]; simpl; [constructor|].
  destruct (isspace x); [exact IH|constructor; assumption].
Qed.

Lemma strip_ok (s : str) : Forall P s -> Forall P (strip s).
Proof.
  intros H. unfold strip, rstrip. apply Forall_rev. apply lstrip_ok.
  apply Forall_rev. apply lstrip_ok. exact H.
Qed.

Lemma split_ok (sep : N) (s : str) :
  Forall P s -> Forall (Forall P) (split sep s).
Proof.
  induction 1 as [|x s Hx Hs IH]; simpl; [repeat constructor|].
  destruct (x =? sep)%N; [constructor; [constructor|exact IH]|].
  destruct (split sep s) as [|l ls].
  - repeat constructor. exact Hx.
  - inversion IH; subst. constructor; [constructor; assumption|assumption].
Qed.

Lemma join_ok (sep : str) (parts : list str) :
  Forall P sep -> Forall (Forall P) parts -> Forall P (join sep parts).
Proof.
  intros Hsep. induction 1 as [|p ps Hp Hps IH]; simpl; [constructor|].
  destruct ps as [|q ps]; [exact Hp|].
  apply Forall_app. split; [exact Hp|].
  apply Forall_app. split; [exact Hsep|exact IH].
Qed.

Lemma collect_lines_ok (content : str) :
  Forall P content -> Forall (Forall P) (Clean.collect_lines content).
Proof.
  intros H. unfold Clean.collect_lines.
  apply Forall_forall. intros l Hl. apply filter_In in Hl. destruct Hl as [Hl _].
  apply in_map_iff in Hl. destruct Hl as [l0 [<- Hl0]].
  apply strip_ok. revert l0 Hl0. apply Forall_forall. apply split_ok. exact H.
Qed.

End Preservation.

Section Absence.

Variable Q : N -> Prop.

Lemma rep_dead (g : bool) (c : cset) (k : cont) :
  forall s lo prev cs,
    free Q s ->
    (1 <= lo /\ (forall x, c x = true -> Q x)) \/ dead Q k ->
    rep g c lo prev s cs k = None.
Proof.
  induction s as [|x s IH]; intros lo prev cs Hs H.
  - simpl. destruct H as [[Hlo _]|Hk].
    + destruct lo; [lia|]. destruct g; reflexivity.
    + destruct lo; destruct g; try reflexivity; rewrite (Hk _ _ _ Hs); reflexivity.
  - inversion Hs as [|? ? Hx Hs']; subst. simpl.
    assert (Hmore : (if c x then rep g c (pred lo) (Some x) s cs k else None) = None).
    { destruct (c x) eqn:Ec; [|reflexivity].
      destruct H as [[Hlo Hc]|Hk].
      - exfalso. apply Hx. apply Hc. exact Ec.
      - apply IH; [exact Hs'|right; exact Hk]. }
    assert (Hstop : match lo with 0 => k prev (x :: s) cs | S _ => None end = None).
    { destruct lo; [|reflexivity].
      destruct H as [[Hlo _]|Hk]; [lia|]. apply Hk. exact Hs. }
    rewrite Hmore, Hstop. destruct g; reflexivity.
Qed.

Lemma run_dead (r : re) :
  forall (k : cont) prev s cs,
    free Q s -> needs Q r \/ dead Q k -> run r prev s cs k = None.
Proof.
  induction r as [|c|r1 IH1 r2 IH2|r1 IH1 r2 IH2|g lo c|m|m|i r IH];
    intros k prev s cs Hs H; simpl.
  - destruct H as [[]|Hk]. apply Hk. exact Hs.
  - destruct s as [|x s]; [reflexivity|].
    inversion Hs as [|? ? Hx Hs']; subst.
    destruct (c x) eqn:Ec; [|reflexivity].
    destruct H as [Hc|Hk]; [exfalso; apply Hx; apply Hc; exact Ec|].
    apply Hk. exact Hs'.
  - apply IH1; [exact Hs|]. destruct H as [[H1|H2]|Hk].
    + left. exact H1.
    + right. intros p s' cs' Hs'. apply IH2; [exact Hs'|left; exact H2].
    + right. intros p s' cs' Hs'. apply IH2; [exact Hs'|right; exact Hk].
  - rewrite IH1, IH2; try exact Hs; try reflexivity.
    + destruct H as [[_ H2]|Hk]; [left; exact H2|right; exact Hk].
    + destruct H as [[H1 _]|Hk]; [left; exact H1|right; exact Hk].
  - apply rep_dead; assumption.
  - destruct H as [[]|Hk]. destruct (at_bol m prev); [apply Hk; exact Hs|reflexivity].
  - destruct H as [[]|Hk]. destruct (at_eol m s); [apply Hk; exact Hs|reflexivity].
  - apply IH; [exact Hs|]. destruct H as [H|Hk]; [left; exact H|].
    right. intros p s' cs' Hs'. apply Hk. exact Hs'.
Qed.

(** An expression that needs a character of the class matches nowhere in a
    subject free of it. *)
Lemma needs_no_match (r : re) (prev : option N) (s : str) :
  needs Q r -> free Q s -> matches_in r prev s = false.
Proof.
  intros Hr Hs. revert prev. induction Hs as [|x s Hx Hs IH]; intros prev; simpl.
  - unfold match_here. rewrite run_dead; [reflexivity|constructor|left; exact Hr].
  - unfold match_here.
    rewrite run_dead; [apply IH|constructor; assumption|left; exact Hr].
Qed.

End Absence.

(** Without a match, [re.sub] returns its subject. *)
Lemma sub_from_no_match (r : re) (t : list titem) (s : str) :
  forall prev, matches_in r prev s = false -> sub_from r t prev s 0 = s.
Proof.
  induction s as [|x s IH]; intros prev H.
  - rewrite sub_from_nil. simpl in H.
    destruct (match_here r prev []); [discriminate|reflexivity].
  - rewrite sub_from_cons. simpl in H.
    destruct (match_here r prev (x :: s)); [discriminate|].
    rewrite IH; [reflexivity|exact H].
Qed.

Lemma sub_no_match (r : re) (t : list titem) (s : str) :
  matches_in r None s = false -> sub r t s = s.
Proof. apply sub_from_no_match. Qed.

(** Deleting the matches of a single-character class is a filter. *)
Lemma sub_chr_filter (c : cset) (s : str) :
  forall prev,
    sub_from (Chr c) [] prev s 0 = filter (fun x => negb (c x)) s.
Proof.
  induction s as [|x s IH]; intros prev.
  - reflexivity.
  - rewrite sub_from_cons. unfold match_here. simpl run. simpl filter.
    destruct (c x); simpl negb; cbv iota.
    + unfold accept. replace (List.length (x :: s) - List.length s) with 1
        by (cbn [List.length]; lia).
      simpl. apply IH.
    + simpl. rewrite IH. reflexivity.
Qed.

(** ** The markup branch and the artifact characters *)

Lemma template_space_ok (P : N -> Prop) : P 32%N -> template_ok P Pat.t_space.
Proof. intros H c [Hc|[]]. inversion Hc; subst. exact H. Qed.

Lemma template_empty_ok (P : N -> Prop) : template_ok P Pat.t_empty.
Proof. intros c []. Qed.

Lemma template_g1_ok (P : N -> Prop) : template_ok P Pat.t_g1.
Proof. intros c [Hc|[]]. discriminate. Qed.

Lemma template_g1_sp_g2_ok (P : N -> Prop) :
  P 32%N -> template_ok P Pat.t_g1_sp_g2.
Proof.
  intros H c [Hc|[Hc|[Hc|[]]]]; try discriminate. inversion Hc; subst. exact H.
Qed.

Lemma strip_markup_artifact_free (s : str) :
  artifact_free (Clean.strip_markup s).
Proof.
  unfold Clean.strip_markup. apply sub_ok; [apply template_empty_ok|].
  unfold sub, Pat.artifact, Pat.t_empty. rewrite sub_chr_filter.
  apply Forall_forall. intros c Hc. apply filter_In in Hc.
  destruct Hc as [_ Hc]. apply negb_true_iff in Hc. exact Hc.
Qed.

Lemma flatten_ok (P : N -> Prop) (lines : list str) :
  P 32%N -> Forall (Forall P) lines -> Forall P (Clean.flatten lines).
Proof.
  intros H32 H. unfold Clean.flatten.
  apply sub_ok; [apply template_space_ok; exact H32|].
  apply sub_ok; [apply template_space_ok; exact H32|].
  apply join_ok; [repeat constructor; exact H32|exact H].
Qed.

Lemma space_sentences_ok (P : N -> Prop) (text : str) :
  P 32%N -> Forall P text -> Forall P (Clean.space_sentences text).
Proof.
  intros H32 H. unfold Clean.space_sentences.
  apply sub_ok; [apply template_g1_sp_g2_ok; exact H32|].
  apply sub_ok; [apply template_g1_ok|exact H].
Qed.

Lemma space_commas_ok (P : N -> Prop) (text : str) :
  P 32%N -> Forall P text -> Forall P (Clean.space_commas text).
Proof.
  intros H32 H. unfold Clean.space_commas.
  apply sub_ok; [apply template_g1_sp_g2_ok; exact H32|].
  apply sub_ok; [apply template_g1_ok|exact H].
Qed.

Lemma finish_ok (P : N -> Prop) (text : str) :
  P 32%N -> Forall P text -> Forall P (Clean.finish text).
Proof.
  intros H32 H. unfold Clean.finish. apply strip_ok.
  apply sub_ok; [apply template_space_ok; exact H32|exact H].
Qed.

Lemma before_commas_artifact_free (s : str) : artifact_free (before_commas s).
Proof.
  unfold before_commas. apply space_sentences_ok; [reflexivity|].
  apply flatten_ok; [reflexivity|]. apply collect_lines_ok.
  apply strip_markup_artifact_free.
Qed.

Lemma clean_markup_artifact_free (s : str) : artifact_free (Clean.clean_markup s).
Proof.
  unfold Clean.clean_markup, Clean.tidy.
  apply finish_ok; [reflexivity|]. apply space_commas_ok; [reflexivity|].
  apply before_commas_artifact_free.
Qed.

Lemma artifact_free_no_comma (s : str) :
  artifact_free s -> free (fun c => c = 44%N) s.
Proof.
  apply Forall_impl. intros c Hc ->. vm_compute in Hc. discriminate.
Qed.

Lemma space_before_comma_needs_comma :
  needs (fun c => c = 44%N) Pat.space_before_comma.
Proof. simpl. right. intros x Hx. apply N.eqb_eq. exact Hx. Qed.

Lemma comma_before_text_needs_comma :
  needs (fun c => c = 44%N) Pat.comma_before_text.
Proof. simpl. left. intros x Hx. apply N.eqb_eq. exact Hx. Qed.

(** C10: on a payload handled by the markup branch the result holds no
    bracket, brace, comma or quote; the text that reaches the two comma
    substitutions holds none either, so neither pattern matches anywhere
    in it and both substitutions return it unchanged. *)
Theorem markup_branch_drops_artifacts :
  forall subtitle_content : str,
    markup_handled subtitle_content ->
    (exists text,
        _clean_subtitle_text subtitle_content = Ok text /\ artifact_free text)
    /\ artifact_free (before_commas subtitle_content)
    /\ matches_in Pat.space_before_comma None (before_commas subtitle_content)
       = false
    /\ matches_in Pat.comma_before_text None (before_commas subtitle_content)
       = false
    /\ Clean.space_commas (before_commas subtitle_content)
       = before_commas subtitle_content.
Proof.
  intros s Hs.
  pose proof (before_commas_artifact_free s) as Hfree.
  pose proof (artifact_free_no_comma Hfree) as Hno.
  assert (H1 : matches_in Pat.space_before_comma None (before_commas s) = false)
    by (apply needs_no_match with (Q := fun c => c = 44%N);
        [apply space_before_comma_needs_comma|exact Hno]).
  assert (H2 : matches_in Pat.comma_before_text None (before_commas s) = false)
    by (apply needs_no_match with (Q := fun c => c = 44%N);
        [apply comma_before_text_needs_comma|exact Hno]).
  split; [|split; [exact Hfree|split; [exact H1|split; [exact H2|]]]].
  - unfold _clean_subtitle_text. destruct s as [|c s].
    + exists []. split; [reflexivity|constructor].
    + cbn [truthy negb]. cbv iota. unfold markup_handled in Hs. rewrite Hs.
      eexists. split; [reflexivity|apply clean_markup_artifact_free].
  - unfold Clean.space_commas.
    rewrite (sub_no_match _ _ _ H1). apply sub_no_match. exact H2.
Qed.

Lemma markup_branch_drops_artifacts_witness :
  (exists text, _clean_subtitle_text vtt_sample = Ok text /\ artifact_free text)
  /\ artifact_free (before_commas vtt_sample)
  /\ matches_in Pat.space_before_comma None (before_commas vtt_sample) = false
  /\ matches_in Pat.comma_before_text None (before_commas vtt_sample) = false
  /\ Clean.space_commas (before_commas vtt_sample) = before_commas vtt_sample.
Proof.
  apply (@markup_branch_drops_artifacts vtt_sample). vm_compute. reflexivity.
Defined.

(** ** The image of the normalizer *)

Lemma clean_sample_is_clean : is_clean clean_sample = true.
Proof. vm_compute. reflexivity. Qed.

(** C9 (as stated, refuted): [eveventsents] is single-line and in the image
    of the normalizer, yet normalizing it twice does not give what
    normalizing it once gives. *)
Lemma image_not_stable :
  _clean_subtitle_text (lit "eveveventsentsents") = Ok (lit "eveventsents")
  /\ _clean_subtitle_text (lit "eveventsents") = Ok (lit "events")
  /\ rbind (_clean_subtitle_text (lit "eveventsents")) _clean_subtitle_text = Ok []
  /\ rbind (_clean_subtitle_text (lit "eveventsents")) _clean_subtitle_text
     <> _clean_subtitle_text (lit "eveventsents").
Proof. repeat split; vm_compute; try reflexivity; discriminate. Qed.

(** ** Facts on repetition and literal words *)

Lemma rep_sound (g : bool) (c : cset) (k : cont) :
  forall s lo prev cs res,
    rep g c lo prev s cs k = Some res ->
    exists pre rest p,
      s = pre ++ rest /\ forallb c pre = true /\ k p rest cs = Some res.
Proof.
  induction s as [|x s IH]; intros lo prev cs res H.
  - exists [], [], prev. simpl in H.
    destruct lo; destruct g; try discriminate.
    + repeat split. exact H.
    + destruct (k prev [] cs); [|discriminate]. repeat split. exact H.
  - simpl in H.
    assert (Hmore : forall r0,
      (if c x then rep g c (pred lo) (Some x) s cs k else None) = Some r0 ->
      exists pre rest p,
        x :: s = pre ++ rest /\ forallb c pre = true /\ k p rest cs = Some r0).
    { intros r0 H0. destruct (c x) eqn:Ec; [|discriminate].
      destruct (IH _ _ _ _ H0) as [pre [rest [p [E [Hc Hk]]]]].
      exists (x :: pre), rest, p. subst s. simpl. rewrite Ec.
      repeat split; assumption. }
    assert (Hstop : forall r0,
      match lo with 0 => k prev (x :: s) cs | S _ => None end = Some r0 ->
      exists pre rest p,
        x :: s = pre ++ rest /\ forallb c pre = true /\ k p rest cs = Some r0).
    { intros r0 H0. destruct lo; [|discriminate].
      exists [], (x :: s), prev. repeat split. exact H0. }
    destruct g.
    + destruct (if c x then rep true c (pred lo) (Some x) s cs k else None)
        as [r1|] eqn:E.
      * inversion H; subst. apply Hmore. reflexivity.
      * apply Hstop. exact H.
    + destruct (match lo with 0 => k prev (x :: s) cs | S _ => None end)
        as [r1|] eqn:E.
      * inversion H; subst. apply Hstop. reflexivity.
      * apply Hmore. exact H.
Qed.

(** A literal word does not match where the subject does not start with
    it. *)
Lemma literal_mismatch (w : str) :
  forall s prev cs k,
    startswith w s = false ->
    run (seq (map (fun c => Chr (one c)) w)) prev s cs k = None.
Proof.
  induction w as [|a w IH]; intros s prev cs k H.
  - destruct s; discriminate.
  - destruct w as [|b w].
    + simpl. destruct s as [|y s]; [reflexivity|].
      simpl in H. unfold one. rewrite N.eqb_sym.
      destruct (a =? y)%N; [discriminate|reflexivity].
    + change (seq (map (fun c => Chr (one c)) (a :: b :: w)))
        with (Seq (Chr (one a)) (seq (map (fun c => Chr (one c)) (b :: w)))).
      simpl run. destruct s as [|y s]; [reflexivity|].
      simpl in H. unfold one at 1. rewrite N.eqb_sym.
      destruct (a =? y)%N; [|reflexivity].
      apply IH. exact H.
Qed.

Lemma contains_cons (w : str) (x : N) (s : str) :
  contains w (x :: s) = false ->
  startswith w (x :: s) = false /\ contains w s = false.
Proof. simpl contains. intros H. apply orb_false_iff in H. exact H. Qed.

Lemma contains_nil (w : str) : contains w [] = false -> startswith w [] = false.
Proof. simpl. intros H. apply orb_false_iff in H. apply H. Qed.

(** ** What each pattern needs *)

Lemma vtt_header_needs_newline : needs (fun c => c = NL) Pat.vtt_header.
Proof. find_needed. Qed.

Lemma srt_timestamp_needs_colon : needs (fun c => c = 58%N) Pat.srt_timestamp.
Proof. find_needed. Qed.

Lemma vtt_timestamp_needs_colon : needs (fun c => c = 58%N) Pat.vtt_timestamp.
Proof. find_needed. Qed.

Lemma tag_needs_lt : needs (fun c => c = 60%N) Pat.tag.
Proof. find_needed. Qed.

Lemma style_block_needs_brace : needs (fun c => c = 123%N) Pat.style_block.
Proof. find_needed. Qed.

Lemma position_cue_needs_colon : needs (fun c => c = 58%N) Pat.position_cue.
Proof. find_needed. Qed.

Lemma align_cue_needs_colon : needs (fun c => c = 58%N) Pat.align_cue.
Proof. find_needed. Qed.

Lemma size_cue_needs_colon : needs (fun c => c = 58%N) Pat.size_cue.
Proof. find_needed. Qed.

Lemma artifact_needs_artifact :
  needs (fun c => oneof Pat.artifact_chars c = true) Pat.artifact.
Proof. intros x Hx. exact Hx. Qed.

Lemma newlines_needs_newline :
  needs (fun c => oneof [CR; NL] c = true) Pat.newlines.
Proof. split; [apply le_n|intros x Hx; exact Hx]. Qed.

(** ** Facts on plain characters *)

Lemma plain_space (c : N) : plain c = true -> isspace c = true -> c = 32%N.
Proof.
  unfold plain. intros H Hs. rewrite Hs in H. simpl in H.
  rewrite orb_false_r in H.
  destruct (c =? 32)%N eqn:E; [apply N.eqb_eq; exact E|discriminate].
Qed.

Lemma plain_not_artifact (c : N) :
  plain c = true -> oneof Pat.artifact_chars c = false.
Proof.
  unfold plain. intros H.
  destruct (oneof Pat.artifact_chars c); [|reflexivity].
  rewrite andb_false_r in H. discriminate.
Qed.

Lemma plain_is_not (d : N) (c : N) : plain d = false -> plain c = true -> c <> d.
Proof. intros Hd Hc ->. rewrite Hd in Hc. discriminate. Qed.

Lemma plain_not_line_break (c : N) :
  plain c = true -> ~ (oneof [CR; NL] c = true).
Proof.
  intros Hc H. simpl in H. rewrite orb_false_r in H.
  apply orb_true_iff in H. destruct H as [H|H]; apply N.eqb_eq in H; subst c;
    vm_compute in Hc; discriminate.
Qed.

Lemma plain_free (Q : N -> Prop) (s : str) :
  (forall c, plain c = true -> ~ Q c) -> forallb plain s = true -> free Q s.
Proof.
  intros HQ H. apply Forall_forall. intros c Hc. apply HQ.
  rewrite forallb_forall in H. apply H. exact Hc.
Qed.

Lemma plain_free_of (d : N) (s : str) :
  plain d = false -> forallb plain s = true -> free (fun c => c = d) s.
Proof.
  intros Hd. apply plain_free. intros c Hc. apply (plain_is_not Hd Hc).
Qed.

(** ** Facts on string operations *)

Lemma split_without_separator (sep : N) (s : str) :
  Forall (fun c => c <> sep) s -> split sep s = [s].
Proof.
  induction 1 as [|x s Hx Hs IH]; simpl; [reflexivity|].
  apply N.eqb_neq in Hx. rewrite Hx, IH. reflexivity.
Qed.

Lemma lstrip_text (s : str) : starts_with_text s = true -> lstrip s = s.
Proof.
  destruct s as [|c s]; simpl; [discriminate|].
  intros H. apply negb_true_iff in H. rewrite H. reflexivity.
Qed.

Lemma strip_text (s : str) :
  starts_with_text s = true -> starts_with_text (rev s) = true -> strip s = s.
Proof.
  intros H1 H2. unfold strip, rstrip.
  rewrite (lstrip_text _ H1), (lstrip_text _ H2). apply rev_involutive.
Qed.

Lemma contains_without_first (d : N) (w s : str) :
  Forall (fun c => c <> d) s -> contains (d :: w) s = false.
Proof.
  induction 1 as [|x s Hx Hs IH]; simpl; [reflexivity|].
  rewrite IH. apply N.eqb_neq in Hx. rewrite N.eqb_sym, Hx. reflexivity.
Qed.

(** ** The whitespace and punctuation patterns on clean text *)

Lemma spaces_at_end (prev : option N) : match_here Pat.spaces prev [] = None.
Proof. reflexivity. Qed.

Lemma spaces_at_text (prev : option N) (a : N) (s : str) :
  isspace a = false -> match_here Pat.spaces prev (a :: s) = None.
Proof.
  intros Ha. unfold match_here, Pat.spaces, Pat.space. simpl.
  rewrite Ha. reflexivity.
Qed.

(** A single space is matched alone. *)
Lemma spaces_at_single (prev : option N) (a : N) (s : str) :
  isspace a = true -> starts_with_text s = true \/ s = [] ->
  match_here Pat.spaces prev (a :: s) = Some (s, []).
Proof.
  intros Ha Hs. unfold match_here, Pat.spaces, Pat.space.
  destruct s as [|b s].
  - simpl. rewrite Ha. reflexivity.
  - destruct Hs as [Hs|Hs]; [|discriminate].
    simpl in Hs. apply negb_true_iff in Hs.
    simpl. rewrite Ha, Hs. reflexivity.
Qed.

Lemma pairs_ok_tail (a : N) (s : str) : pairs_ok (a :: s) = true -> pairs_ok s = true.
Proof.
  destruct s as [|b s]; [reflexivity|].
  intros H. change (pair_ok a b && pairs_ok (b :: s) = true) in H.
  apply andb_prop in H. apply H.
Qed.

Lemma pairs_ok_head (a b : N) (s : str) :
  pairs_ok (a :: b :: s) = true -> pair_ok a b = true.
Proof.
  intros H. change (pair_ok a b && pairs_ok (b :: s) = true) in H.
  apply andb_prop in H. apply H.
Qed.

Lemma pair_after_space (a b : N) :
  pair_ok a b = true -> isspace a = true ->
  isspace b = false /\ Pat.sentence_end b = false.
Proof.
  unfold pair_ok. intros H Ha. rewrite Ha in H. simpl in H.
  apply andb_prop in H. destruct H as [H _]. apply negb_true_iff in H.
  apply orb_false_iff in H. exact H.
Qed.

Lemma pair_after_end (a b : N) :
  pair_ok a b = true -> Pat.sentence_end a = true -> isspace b = true.
Proof.
  unfold pair_ok. intros H Ha. rewrite Ha in H. simpl in H.
  apply andb_prop in H. apply H.
Qed.

Lemma sub_spaces_single (s : str) :
  forall prev,
    forallb plain s = true -> pairs_ok s = true ->
    sub_from Pat.spaces Pat.t_space prev s 0 = s.
Proof.
  induction s as [|a s IH]; intros prev Hp Hpairs.
  - reflexivity.
  - rewrite sub_from_cons.
    simpl in Hp. apply andb_prop in Hp. destruct Hp as [Ha Hp].
    pose proof (pairs_ok_tail _ _ Hpairs) as Htail.
    destruct (isspace a) eqn:Es.
    + rewrite spaces_at_single; [|exact Es|].
      * replace (List.length (a :: s) - List.length s) with 1
          by (cbn [List.length]; lia).
        cbv iota. rewrite expand_space. rewrite IH by assumption.
        rewrite (plain_space _ Ha Es). reflexivity.
      * destruct s as [|b s]; [right; reflexivity|left].
        destruct (pair_after_space _ _ (pairs_ok_head _ _ _ Hpairs) Es) as [Hb _].
        unfold starts_with_text. rewrite Hb. reflexivity.
    + rewrite spaces_at_text by exact Es. rewrite IH by assumption. reflexivity.
Qed.

Lemma space_before_end_nowhere (s : str) :
  forall prev,
    pairs_ok s = true -> matches_in Pat.space_before_end prev s = false.
Proof.
  induction s as [|a s IH]; intros prev Hpairs.
  - reflexivity.
  - pose proof (pairs_ok_tail _ _ Hpairs) as Htail.
    assert (H : match_here Pat.space_before_end prev (a :: s) = None).
    { unfold match_here, Pat.space_before_end, Pat.space.
      destruct s as [|b s]; simpl; destruct (isspace a) eqn:Es;
        try reflexivity.
      destruct (pair_after_space _ _ (pairs_ok_head _ _ _ Hpairs) Es) as [Hb He].
      rewrite Hb, He. reflexivity. }
    simpl. rewrite H. apply IH. exact Htail.
Qed.

Lemma end_before_text_nowhere (s : str) :
  forall prev,
    pairs_ok s = true -> matches_in Pat.end_before_text prev s = false.
Proof.
  induction s as [|a s IH]; intros prev Hpairs.
  - reflexivity.
  - pose proof (pairs_ok_tail _ _ Hpairs) as Htail.
    assert (H : match_here Pat.end_before_text prev (a :: s) = None).
    { unfold match_here, Pat.end_before_text, Pat.space, neg.
      destruct s as [|b s]; simpl; destruct (Pat.sentence_end a) eqn:Ee;
        try reflexivity.
      rewrite (pair_after_end _ _ (pairs_ok_head _ _ _ Hpairs) Ee). reflexivity. }
    simpl. rewrite H. apply IH. exact Htail.
Qed.

(** ** The token, sequence-number and line patterns on clean text *)

Lemma json_token_here (prev : option N) (s : str) :
  startswith (lit "wsWinStyles") s = false ->
  startswith (lit "wpWinPositions") s = false ->
  startswith (lit "events") s = false ->
  match_here Pat.json_token prev s = None.
Proof.
  intros H1 H2 H3. unfold match_here, Pat.json_token, word. cbn [run].
  rewrite (literal_mismatch _ _ _ _ _ H1), (literal_mismatch _ _ _ _ _ H2),
    (literal_mismatch _ _ _ _ _ H3).
  reflexivity.
Qed.

Lemma no_token_parts (s : str) :
  no_token s = true ->
  contains (lit "wsWinStyles") s = false
  /\ contains (lit "wpWinPositions") s = false
  /\ contains (lit "events") s = false.
Proof.
  unfold no_token. intros H.
  apply andb_prop in H. destruct H as [H H3].
  apply andb_prop in H. destruct H as [H1 H2].
  apply negb_true_iff in H1, H2, H3. repeat split; assumption.
Qed.

Lemma json_token_absent (s : str) :
  forall prev,
    contains (lit "wsWinStyles") s = false ->
    contains (lit "wpWinPositions") s = false ->
    contains (lit "events") s = false ->
    matches_in Pat.json_token prev s = false.
Proof.
  induction s as [|a s IH]; intros prev H1 H2 H3.
  - cbn [matches_in]. rewrite json_token_here; [reflexivity| | |];
      apply contains_nil; assumption.
  - apply contains_cons in H1, H2, H3.
    destruct H1 as [H1 H1'], H2 as [H2 H2'], H3 as [H3 H3'].
    cbn [matches_in]. rewrite json_token_here by assumption.
    apply IH; assumption.
Qed.

Lemma all_then_no_other (f : N -> bool) (s : str) :
  forallb f s = true -> existsb (fun c => negb (f c)) s = false.
Proof.
  induction s as [|a s IH]; simpl; [reflexivity|].
  intros H. apply andb_prop in H. destruct H as [Ha Hs].
  rewrite Ha, (IH Hs). reflexivity.
Qed.

Lemma at_eol_without_newline (m : bool) (s : str) :
  Forall (fun c => c <> NL) s -> at_eol m s = true -> s = [].
Proof.
  intros Hs H. destruct s as [|c s]; [reflexivity|].
  inversion Hs as [|? ? Hc _]; subst. simpl in H.
  apply N.eqb_neq in Hc. rewrite Hc in H. discriminate.
Qed.

(** At the start of the text: digits, whitespace and the end of the line
    would make up the whole text. *)
Lemma sequence_number_at_start (s : str) :
  Forall (fun c => c <> NL) s ->
  starts_with_text (rev s) = true ->
  existsb (fun c => negb (isdecimal c)) s = true ->
  match_here Pat.sequence_number None s = None.
Proof.
  intros Hnl Hlast Hnum.
  destruct (match_here Pat.sequence_number None s) as [res|] eqn:E;
    [exfalso|reflexivity].
  unfold match_here, Pat.sequence_number in E. simpl in E.
  apply rep_sound in E. destruct E as [ds [rest [p [Es [Hds E]]]]].
  apply rep_sound in E. destruct E as [ws [rest' [p' [Er [Hws E]]]]].
  destruct (at_eol true rest') eqn:Eeol; [|discriminate].
  subst s rest.
  apply Forall_app in Hnl. destruct Hnl as [_ Hnl].
  apply Forall_app in Hnl. destruct Hnl as [_ Hnl].
  rewrite (@at_eol_without_newline true rest' Hnl Eeol) in *.
  rewrite app_nil_r in *.
  destruct ws as [|z ws].
  - rewrite app_nil_r in Hnum. unfold Pat.digit in Hds.
    rewrite (all_then_no_other _ _ Hds) in Hnum. discriminate.
  - assert (Hne : z :: ws <> []) by discriminate.
    destruct (exists_last Hne) as [ws0 [y Ey]]. rewrite Ey in Hlast, Hws.
    rewrite app_assoc, rev_unit in Hlast. simpl in Hlast.
    rewrite forallb_app in Hws. apply andb_prop in Hws. destruct Hws as [_ Hy].
    simpl in Hy. rewrite andb_true_r in Hy. unfold Pat.space in Hy.
    rewrite Hy in Hlast. discriminate.
Qed.

Lemma sequence_number_inside (s : str) :
  forall prev,
    at_bol true prev = false -> Forall (fun c => c <> NL) s ->
    matches_in Pat.sequence_number prev s = false.
Proof.
  induction s as [|a s IH]; intros prev Hprev Hnl.
  - cbn [matches_in]. unfold match_here, Pat.sequence_number. simpl.
    rewrite Hprev. reflexivity.
  - inversion Hnl as [|? ? Ha Hs]; subst.
    cbn [matches_in]. unfold match_here at 1, Pat.sequence_number at 1.
    cbn [seq run]. rewrite Hprev.
    apply IH; [|exact Hs]. simpl. apply N.eqb_neq. exact Ha.
Qed.

Lemma sequence_number_absent (s : str) :
  Forall (fun c => c <> NL) s ->
  starts_with_text (rev s) = true ->
  existsb (fun c => negb (isdecimal c)) s = true ->
  matches_in Pat.sequence_number None s = false.
Proof.
  intros Hnl Hlast Hnum. destruct s as [|a s]; [discriminate|].
  cbn [matches_in]. rewrite sequence_number_at_start by assumption.
  inversion Hnl as [|? ? Ha Hs]; subst.
  apply sequence_number_inside; [|exact Hs]. simpl. apply N.eqb_neq. exact Ha.
Qed.

Lemma rep_first_mismatch (g : bool) (c : cset) (lo : nat) (prev : option N)
    (x : N) (s : str) (cs : caps) (k : cont) :
  c x = false -> 1 <= lo -> rep g c lo prev (x :: s) cs k = None.
Proof.
  intros Hc Hlo. simpl. rewrite Hc.
  destruct lo; [lia|]. destruct g; reflexivity.
Qed.

Lemma special_line_rejects_text (s : str) :
  forallb plain s = true -> starts_with_text s = true ->
  re_match Pat.special_line s = false.
Proof.
  intros Hp Hs. destruct s as [|c s]; [discriminate|].
  simpl in Hp, Hs. apply andb_prop in Hp. destruct Hp as [Hc _].
  apply negb_true_iff in Hs.
  assert (Hcls : (isspace c || oneof (Pat.artifact_chars ++ lit ":") c) = false).
  { rewrite Hs. unfold oneof. rewrite existsb_app.
    fold (oneof Pat.artifact_chars c). rewrite (plain_not_artifact _ Hc).
    simpl. rewrite orb_false_r. apply N.eqb_neq.
    apply (@plain_is_not 58%N c); [reflexivity|exact Hc]. }
  unfold re_match, match_here, Pat.special_line. cbn [seq run at_bol].
  rewrite rep_first_mismatch; [reflexivity|exact Hcls|apply le_n].
Qed.

Lemma keep_line_text (s : str) :
  forallb plain s = true -> starts_with_text s = true ->
  Clean.keep_line s = true.
Proof.
  intros Hp Hs. unfold Clean.keep_line.
  rewrite (special_line_rejects_text _ Hp Hs).
  destruct s as [|c s]; [discriminate|].
  simpl in Hs. apply negb_true_iff in Hs. simpl. rewrite Hs. reflexivity.
Qed.

Lemma startswith_one (d c : N) (s : str) : startswith [d] (c :: s) = (d =? c)%N.
Proof. unfold startswith. apply andb_true_r. Qed.

Lemma looks_like_markup (s : str) :
  forallb plain s = true ->
  starts_with_text s = true -> starts_with_text (rev s) = true ->
  looks_like_json s = false.
Proof.
  intros Hp H1 H2. unfold looks_like_json. rewrite (strip_text _ H1 H2).
  apply orb_false_iff. split.
  - destruct s as [|c s]; [discriminate|].
    simpl in Hp. apply andb_prop in Hp. destruct Hp as [Hc _].
    change (lit "{") with [123%N]. rewrite startswith_one.
    rewrite N.eqb_sym. apply N.eqb_neq.
    apply (@plain_is_not 123%N c); [reflexivity|exact Hc].
  - apply contains_without_first. apply (@plain_free_of DQ); [reflexivity|exact Hp].
Qed.

(** ** The normalizer on clean text *)

Lemma text_is_truthy (s : str) : starts_with_text s = true -> truthy s = true.
Proof. destruct s; [discriminate|reflexivity]. Qed.

Section OnCleanText.

Variable x : str.
Hypothesis Hplain : forallb plain x = true.
Hypothesis Hfirst : starts_with_text x = true.
Hypothesis Hlast : starts_with_text (rev x) = true.
Hypothesis Hpairs : pairs_ok x = true.
Hypothesis Htoken : no_token x = true.
Hypothesis Hnumber : existsb (fun c => negb (isdecimal c)) x = true.

Lemma clean_no_newline : Forall (fun c => c <> NL) x.
Proof. apply (@plain_free_of NL); [reflexivity|exact Hplain]. Qed.

Lemma strip_markup_clean : Clean.strip_markup x = x.
Proof.
  unfold Clean.strip_markup.
  rewrite (@sub_no_match Pat.vtt_header _ x)
    by (apply needs_no_match with (Q := fun c => c = NL);
        [apply vtt_header_needs_newline|exact clean_no_newline]).
  assert (Hcolon : free (fun c => c = 58%N) x)
    by (apply plain_free_of; [reflexivity|exact Hplain]).
  rewrite (@sub_no_match Pat.srt_timestamp _ x)
    by (apply needs_no_match with (Q := fun c => c = 58%N);
        [apply srt_timestamp_needs_colon|exact Hcolon]).
  rewrite (@sub_no_match Pat.vtt_timestamp _ x)
    by (apply needs_no_match with (Q := fun c => c = 58%N);
        [apply vtt_timestamp_needs_colon|exact Hcolon]).
  rewrite (@sub_no_match Pat.sequence_number _ x)
    by (apply sequence_number_absent;
        [exact clean_no_newline|exact Hlast|exact Hnumber]).
  rewrite (@sub_no_match Pat.tag _ x)
    by (apply needs_no_match with (Q := fun c => c = 60%N);
        [apply tag_needs_lt|apply plain_free_of; [reflexivity|exact Hplain]]).
  rewrite (@sub_no_match Pat.style_block _ x)
    by (apply needs_no_match with (Q := fun c => c = 123%N);
        [apply style_block_needs_brace
        |apply plain_free_of; [reflexivity|exact Hplain]]).
  rewrite (@sub_no_match Pat.position_cue _ x)
    by (apply needs_no_match with (Q := fun c => c = 58%N);
        [apply position_cue_needs_colon|exact Hcolon]).
  rewrite (@sub_no_match Pat.align_cue _ x)
    by (apply needs_no_match with (Q := fun c => c = 58%N);
        [apply align_cue_needs_colon|exact Hcolon]).
  rewrite (@sub_no_match Pat.size_cue _ x)
    by (apply needs_no_match with (Q := fun c => c = 58%N);
        [apply size_cue_needs_colon|exact Hcolon]).
  rewrite (@sub_no_match Pat.artifact _ x).
  - apply sub_no_match.
    destruct (no_token_parts _ Htoken) as [H1 [H2 H3]].
    apply json_token_absent; assumption.
  - apply needs_no_match with (Q := fun c => oneof Pat.artifact_chars c = true);
      [apply artifact_needs_artifact|].
    apply plain_free; [|exact Hplain].
    intros c Hc H. rewrite (plain_not_artifact _ Hc) in H. discriminate.
Qed.

Lemma collect_lines_clean : Clean.collect_lines x = [x].
Proof.
  unfold Clean.collect_lines.
  rewrite (split_without_separator clean_no_newline). simpl map.
  rewrite (strip_text _ Hfirst Hlast). simpl filter.
  rewrite (keep_line_text _ Hplain Hfirst). reflexivity.
Qed.

Lemma sub_spaces_clean : sub Pat.spaces Pat.t_space x = x.
Proof. apply sub_spaces_single; assumption. Qed.

Lemma tidy_clean : Clean.tidy x = x.
Proof.
  unfold Clean.tidy. rewrite collect_lines_clean.
  unfold Clean.flatten. simpl join.
  rewrite (@sub_no_match Pat.newlines _ x).
  - rewrite sub_spaces_clean. unfold Clean.space_sentences.
    rewrite (@sub_no_match Pat.space_before_end _ x)
      by (apply space_before_end_nowhere; exact Hpairs).
    rewrite (@sub_no_match Pat.end_before_text _ x)
      by (apply end_before_text_nowhere; exact Hpairs).
    assert (Hcomma : free (fun c => c = 44%N) x)
      by (apply plain_free_of; [reflexivity|exact Hplain]).
    unfold Clean.space_commas.
    rewrite (@sub_no_match Pat.space_before_comma _ x)
      by (apply needs_no_match with (Q := fun c => c = 44%N);
          [apply space_before_comma_needs_comma|exact Hcomma]).
    rewrite (@sub_no_match Pat.comma_before_text _ x)
      by (apply needs_no_match with (Q := fun c => c = 44%N);
          [apply comma_before_text_needs_comma|exact Hcomma]).
    unfold Clean.finish. rewrite sub_spaces_clean.
    apply strip_text; assumption.
  - apply needs_no_match with (Q := fun c => oneof [CR; NL] c = true);
      [apply newlines_needs_newline|].
    apply plain_free; [|exact Hplain]. apply plain_not_line_break.
Qed.

Lemma clean_text_fixed : _clean_subtitle_text x = Ok x.
Proof.
  unfold _clean_subtitle_text.
  rewrite (looks_like_markup _ Hplain Hfirst Hlast).
  rewrite (text_is_truthy _ Hfirst). cbn [negb]. cbv iota.
  unfold Clean.clean_markup.
  rewrite strip_markup_clean, tidy_clean. reflexivity.
Qed.

End OnCleanText.

Lemma is_clean_parts (x : str) :
  is_clean x = true ->
  forallb plain x = true /\ starts_with_text x = true
  /\ starts_with_text (rev x) = true /\ pairs_ok x = true
  /\ no_token x = true /\ existsb (fun c => negb (isdecimal c)) x = true.
Proof.
  unfold is_clean. intros H.
  repeat (apply andb_prop in H; let H' := fresh "H" in destruct H as [H H']).
  repeat split; assumption.
Qed.

(** C9 (amended): on already-clean single-line text ([is_clean]) the
    normalizer returns its input, so normalizing twice gives what
    normalizing once gives. *)
Theorem normalize_fixes_clean_text :
  forall x : str,
    is_clean x = true ->
    _clean_subtitle_text x = Ok x
    /\ rbind (_clean_subtitle_text x) _clean_subtitle_text
       = _clean_subtitle_text x.
Proof.
  intros x H.
  destruct (is_clean_parts _ H) as [H1 [H2 [H3 [H4 [H5 H6]]]]].
  assert (Hfix : _clean_subtitle_text x = Ok x)
    by (apply clean_text_fixed; assumption).
  split; [exact Hfix|]. rewrite Hfix. simpl. exact Hfix.
Qed.

Lemma normalize_fixes_clean_text_witness :
  _clean_subtitle_text clean_sample = Ok clean_sample
  /\ rbind (_clean_subtitle_text clean_sample) _clean_subtitle_text
     = _clean_subtitle_text clean_sample.
Proof.
  apply (@normalize_fixes_clean_text clean_sample). vm_compute. reflexivity.
Defined.

(** ** The scanner never runs out of budget *)

Lemma skip_ws_length (s : str) : List.length (skip_ws s) <= List.length s.
Proof.
  induction s as [|c s IH]; simpl; [lia|].
  destruct (is_ws c); simpl; lia.
Qed.

Lemma expect_length (c : N) (s r : str) :
  expect c s = Some r -> List.length s = S (List.length r).
Proof.
  destruct s as [|x s]; simpl; [discriminate|].
  destruct (x =? c)%N; [|discriminate]. intros H. inversion H; subst. reflexivity.
Qed.

Lemma hex4_length (s r : str) (v : N) :
  hex4 s = Some (v, r) -> List.length s = 4 + List.length r.
Proof.
  unfold hex4. destruct s as [|a [|b [|c [|d rest]]]]; try discriminate.
  destruct (hex_value a), (hex_value b), (hex_value c), (hex_value d);
    try discriminate.
  intros H. inversion H; subst. reflexivity.
Qed.

Lemma shrinks_invalid (A : Type) (s : str) : shrinks s (@Invalid A).
Proof. split; [discriminate|intros v r H; discriminate]. Qed.

Lemma shrinks_digit_limit (A : Type) (s : str) : shrinks s (@DigitLimit A).
Proof. split; [discriminate|intros v r H; discriminate]. Qed.

Lemma shrinks_parsed (A : Type) (s : str) (v : A) (r : str) :
  List.length r < List.length s -> shrinks s (Parsed v r).
Proof.
  intros H. split; [discriminate|]. intros v' r' E. inversion E; subst. exact H.
Qed.

Lemma shrinks_longer (A : Type) (s s' : str) (r : parsed A) :
  List.length s' <= List.length s -> shrinks s' r -> shrinks s r.
Proof.
  intros Hl [H1 H2]. split; [exact H1|]. intros v rest E.
  specialize (H2 v rest E). lia.
Qed.

Lemma scanstring_budget (fuel : nat) :
  forall s acc, List.length s < fuel -> shrinks s (scanstring fuel s acc).
Proof.
  induction fuel as [|fuel IH]; intros s acc Hlen; [lia|].
  destruct s as [|c s]; cbn [scanstring]; [apply shrinks_invalid|].
  simpl in Hlen. destruct (c =? DQ)%N; [apply shrinks_parsed; simpl; lia|].
  destruct (c =? 92)%N.
  - destruct s as [|e s]; [apply shrinks_invalid|]. simpl in Hlen.
    destruct (e =? 117)%N.
    + destruct (hex4 s) as [[hi r]|] eqn:Eh; [|apply shrinks_invalid].
      apply hex4_length in Eh.
      assert (Hplain : forall acc',
                shrinks (c :: e :: s) (scanstring fuel r acc')).
      { intros acc'. apply shrinks_longer with (s' := r); [simpl; lia|].
        apply IH. lia. }
      destruct (between 55296 56319 hi); [|apply Hplain].
      destruct (expect 92 r) as [r1|] eqn:E1; [|apply Hplain].
      destruct (expect 117 r1) as [r2|] eqn:E2; [|apply Hplain].
      apply expect_length in E1, E2.
      destruct (hex4 r2) as [[lo r3]|] eqn:El; [|apply shrinks_invalid].
      apply hex4_length in El.
      destruct (between 56320 57343 lo); [|apply Hplain].
      apply shrinks_longer with (s' := r3); [simpl; lia|]. apply IH. lia.
    + destruct (simple_escape e); [|apply shrinks_invalid].
      apply shrinks_longer with (s' := s); [simpl; lia|]. apply IH. lia.
  - destruct (c <=? 31)%N; [apply shrinks_invalid|].
    apply shrinks_longer with (s' := s); [simpl; lia|]. apply IH. lia.
Qed.

Lemma span_digits_length (s d r : str) :
  span_digits s = (d, r) -> List.length r <= List.length s.
Proof.
  revert d r. induction s as [|c s IH]; intros d r H; simpl in H.
  - inversion H; subst. simpl. lia.
  - destruct (is_digit c).
    + destruct (span_digits s) as [d' r'] eqn:E. inversion H; subst.
      specialize (IH _ _ eq_refl). simpl. lia.
    + inversion H; subst. lia.
Qed.

Lemma int_part_length (s ip r : str) :
  int_part s = Some (ip, r) -> List.length r < List.length s.
Proof.
  unfold int_part. destruct s as [|c s]; [discriminate|].
  destruct (between 49 57 c).
  - destruct (span_digits s) as [d r'] eqn:E. intros H. inversion H; subst.
    apply span_digits_length in E. simpl. lia.
  - destruct (c =? 48)%N; [|discriminate]. intros H. inversion H; subst.
    simpl. lia.
Qed.

Lemma frac_part_length (s f r : str) :
  frac_part s = (f, r) -> List.length r <= List.length s.
Proof.
  unfold frac_part. destruct s as [|dot [|d s]];
    try (intros H; inversion H; subst; lia).
  destruct ((dot =? 46)%N && is_digit d).
  - destruct (span_digits (d :: s)) as [ds r'] eqn:E. intros H.
    inversion H; subst. apply span_digits_length in E. simpl in *. lia.
  - intros H. inversion H; subst. lia.
Qed.

Lemma exp_part_length (s e r : str) :
  exp_part s = (e, r) -> List.length r <= List.length s.
Proof.
  unfold exp_part. destruct s as [|c [|g after_sign]];
    try (intros H; inversion H; subst; lia).
  destruct ((c =? 101)%N || (c =? 69)%N);
    [|intros H; inversion H; subst; lia].
  assert (Hany : forall sg s',
    List.length s' <= List.length (g :: after_sign) ->
    match span_digits s' with
    | ([], _) => ([], c :: g :: after_sign)
    | (ds, r0) => (c :: sg ++ ds, r0)
    end = (e, r) -> List.length r <= List.length (c :: g :: after_sign)).
  { intros sg s' Hs' H. destruct (span_digits s') as [ds r0] eqn:E.
    apply span_digits_length in E.
    destruct ds; inversion H; subst; simpl in *; lia. }
  destruct after_sign as [|y after_sign'].
  - apply Hany. lia.
  - destruct ((g =? 45)%N || (g =? 43)%N); apply Hany; simpl; lia.
Qed.

Lemma match_number_length (s tok r : str) :
  match_number s = Some (tok, r) -> List.length r < List.length s.
Proof.
  unfold match_number.
  assert (Hfrom : forall sign s1,
    List.length s1 <= List.length s ->
    match int_part s1 with
    | None => None
    | Some (ip, s2) =>
        let (frac, s3) := frac_part s2 in
        let (ex, s4) := exp_part s3 in
        Some (sign ++ ip ++ frac ++ ex, s4)
    end = Some (tok, r) -> List.length r < List.length s).
  { intros sign s1 Hs1 H.
    destruct (int_part s1) as [[ip s2]|] eqn:Ei; [|discriminate].
    destruct (frac_part s2) as [frac s3] eqn:Ef.
    destruct (exp_part s3) as [ex s4] eqn:Ee.
    inversion H; subst.
    apply int_part_length in Ei. apply frac_part_length in Ef.
    apply exp_part_length in Ee. lia. }
  destruct (expect 45 s) as [s1|] eqn:E.
  - apply expect_length in E. apply Hfrom. lia.
  - apply Hfrom. lia.
Qed.

Lemma startswith_length (w s : str) :
  startswith w s = true -> List.length w <= List.length s.
Proof.
  revert s. induction w as [|a w IH]; intros s H; simpl; [lia|].
  destruct s as [|b s]; [discriminate|]. simpl in H.
  apply andb_prop in H. destruct H as [_ H]. specialize (IH _ H). simpl. lia.
Qed.

Lemma match_constant_length (table : list (str * json)) (s : str) (v : json)
    (r : str) :
  Forall (fun e => fst e <> []) table ->
  match_constant table s = Some (v, r) -> List.length r < List.length s.
Proof.
  induction 1 as [|[w u] table Hw _ IH]; simpl; [discriminate|].
  destruct (startswith w s) eqn:E; [|exact IH].
  intros H. inversion H; subst. apply startswith_length in E.
  rewrite length_skipn. simpl in Hw. destruct w; [contradiction|].
  simpl in *. lia.
Qed.

Lemma constants_not_empty : Forall (fun e => fst e <> []) constants.
Proof. repeat constructor; discriminate. Qed.

Lemma scan_budget (fuel : nat) :
  (forall s, 2 * List.length s + 1 <= fuel -> shrinks s (scan_once fuel s))
  /\ (forall s acc,
         2 * List.length s + 2 <= fuel -> shrinks s (parse_members fuel s acc))
  /\ (forall s acc,
         2 * List.length s + 2 <= fuel -> shrinks s (parse_items fuel s acc)).
Proof.
  induction fuel as [|fuel [IHs [IHm IHi]]].
  - repeat split; intros; lia.
  - split; [|split].
    + intros s Hf. destruct s as [|c s]; cbn [scan_once]; [apply shrinks_invalid|].
      simpl in Hf. pose proof (skip_ws_length s) as Hws.
      destruct (c =? DQ)%N.
      { destruct (@scanstring_budget (S (List.length s)) s []) as [H1 H2]; [lia|].
        destruct (scanstring (S (List.length s)) s []) as [v r| | |];
          [|apply shrinks_invalid|contradiction|apply shrinks_digit_limit].
        apply shrinks_parsed. specialize (H2 v r eq_refl). simpl. lia. }
      destruct (c =? 123)%N.
      { destruct (expect 125 (skip_ws s)) as [r|] eqn:E.
        - apply expect_length in E. apply shrinks_parsed. simpl. lia.
        - apply shrinks_longer with (s' := skip_ws s); [simpl; lia|].
          apply IHm. lia. }
      destruct (c =? 91)%N.
      { destruct (expect 93 (skip_ws s)) as [r|] eqn:E.
        - apply expect_length in E. apply shrinks_parsed. simpl. lia.
        - apply shrinks_longer with (s' := skip_ws s); [simpl; lia|].
          apply IHi. lia. }
      destruct (match_constant constants (c :: s)) as [[v r]|] eqn:Ec.
      { apply shrinks_parsed.
        eapply match_constant_length; [exact constants_not_empty|exact Ec]. }
      destruct (match_number (c :: s)) as [[tok r]|] eqn:En;
        [|apply shrinks_invalid].
      destruct (refused_by_int tok); [apply shrinks_digit_limit|].
      apply shrinks_parsed. eapply match_number_length. exact En.
    + intros s acc Hf. cbn [parse_members].
      destruct (expect DQ s) as [s1|] eqn:E1; [|apply shrinks_invalid].
      apply expect_length in E1.
      destruct (@scanstring_budget (S (List.length s1)) s1 []) as [H1 H2]; [lia|].
      destruct (scanstring (S (List.length s1)) s1 []) as [key s2| | |];
        [|apply shrinks_invalid|contradiction|apply shrinks_digit_limit].
      specialize (H2 key s2 eq_refl). pose proof (skip_ws_length s2) as Hw2.
      destruct (expect 58 (skip_ws s2)) as [s3|] eqn:E3; [|apply shrinks_invalid].
      apply expect_length in E3. pose proof (skip_ws_length s3) as Hw3.
      destruct (IHs (skip_ws s3)) as [G1 G2]; [lia|].
      destruct (scan_once fuel (skip_ws s3)) as [v s4| | |];
        [|apply shrinks_invalid|contradiction|apply shrinks_digit_limit].
      specialize (G2 v s4 eq_refl). pose proof (skip_ws_length s4) as Hw4.
      destruct (expect 125 (skip_ws s4)) as [r|] eqn:E5.
      { apply expect_length in E5. apply shrinks_parsed. lia. }
      destruct (expect 44 (skip_ws s4)) as [s5|] eqn:E6; [|apply shrinks_invalid].
      apply expect_length in E6. pose proof (skip_ws_length s5) as Hw5.
      apply shrinks_longer with (s' := skip_ws s5); [lia|]. apply IHm. lia.
    + intros s acc Hf. cbn [parse_items].
      destruct (IHs s) as [G1 G2]; [lia|].
      destruct (scan_once fuel s) as [v s1| | |];
        [|apply shrinks_invalid|contradiction|apply shrinks_digit_limit].
      specialize (G2 v s1 eq_refl). pose proof (skip_ws_length s1) as Hw1.
      destruct (expect 93 (skip_ws s1)) as [r|] eqn:E1.
      { apply expect_length in E1. apply shrinks_parsed. lia. }
      destruct (expect 44 (skip_ws s1)) as [s2|] eqn:E2; [|apply shrinks_invalid].
      apply expect_length in E2. pose proof (skip_ws_length s2) as Hw2.
      apply shrinks_longer with (s' := skip_ws s2); [lia|]. apply IHi. lia.
Qed.

(** [json.loads] of the model always returns a value or raises
    [JSONDecodeError] or [ValueError]: the recursion budget it starts with
    is never used up. *)
Lemma loads_within_budget (s : str) : loads s <> Exhausted.
Proof.
  unfold loads, loads_with.
  destruct (expect 65279 s); [discriminate|].
  pose proof (skip_ws_length s) as Hws.
  destruct (proj1 (scan_budget (2 * List.length s + 2)) (skip_ws s)) as [H _];
    [lia|].
  destruct (scan_once (2 * List.length s + 2) (skip_ws s)) as [v r| | |];
    [|discriminate|contradiction|discriminate].
  destruct (skip_ws r); discriminate.
Qed.

(** * Further results *)

(** ** The whitespace substitution *)

Lemma spaces_rest (s : str) :
  forall prev, rep true Pat.space 0 prev s [] accept = Some (lstrip s, []).
Proof.
  induction s as [|x s IH]; intros prev; [reflexivity|].
  cbn [rep lstrip pred]. unfold Pat.space at 1.
  destruct (isspace x); [rewrite IH|]; reflexivity.
Qed.

(** At a whitespace character the pattern takes the whole run. *)
Lemma spaces_at_run (prev : option N) (a : N) (s : str) :
  isspace a = true -> match_here Pat.spaces prev (a :: s) = Some (lstrip s, []).
Proof.
  intros Ha. unfold match_here, Pat.spaces. cbn [run rep pred].
  unfold Pat.space at 1. rewrite Ha, spaces_rest. reflexivity.
Qed.

Lemma lstrip_length (s : str) : List.length (lstrip s) <= List.length s.
Proof.
  induction s as [|x s IH]; [reflexivity|].
  cbn [lstrip]. destruct (isspace x); cbn [List.length]; lia.
Qed.

Lemma sub_spaces_squeeze (s : str) :
  forall prev,
    sub_from Pat.spaces Pat.t_space prev s 0 = squeeze false s
    /\ sub_from Pat.spaces Pat.t_space prev s
         (List.length s - List.length (lstrip s)) = squeeze true s.
Proof.
  induction s as [|x s IH]; intros prev; [split; reflexivity|].
  assert (H0 : sub_from Pat.spaces Pat.t_space prev (x :: s) 0
               = squeeze false (x :: s)).
  { rewrite sub_from_cons. cbn [squeeze]. destruct (isspace x) eqn:Ex.
    - rewrite (@spaces_at_run prev x s Ex).
      pose proof (lstrip_length s) as Hl.
      replace (List.length (x :: s) - List.length (lstrip s))
        with (S (List.length s - List.length (lstrip s)))
        by (cbn [List.length]; lia).
      rewrite expand_space. f_equal. apply IH.
    - rewrite (@spaces_at_text prev x s Ex). f_equal. apply IH. }
  split; [exact H0|].
  cbn [lstrip squeeze] in *. destruct (isspace x) eqn:Ex.
  - pose proof (lstrip_length s) as Hl.
    replace (List.length (x :: s) - List.length (lstrip s))
      with (S (List.length s - List.length (lstrip s)))
      by (cbn [List.length]; lia).
    rewrite sub_from_skip. apply IH.
  - rewrite Nat.sub_diag. exact H0.
Qed.

(** [re.sub(r'\s+', ' ', s)] puts one plain space where [s] has a run of
    whitespace. *)
Lemma sub_spaces_is_squeeze (s : str) :
  sub Pat.spaces Pat.t_space s = squeeze false s.
Proof. apply sub_spaces_squeeze. Qed.

(** ** Spacing of squeezed and stripped text *)

Lemma squeeze_no_odd_space (s : str) :
  forall inside, forallb (fun c => negb (odd_space c)) (squeeze inside s) = true.
Proof.
  induction s as [|x s IH]; intros inside; [reflexivity|].
  cbn [squeeze]. destruct (isspace x) eqn:Ex.
  - destruct inside; [apply IH|]. cbn [forallb]. rewrite IH. reflexivity.
  - cbn [forallb]. unfold odd_space at 1. rewrite Ex, IH. reflexivity.
Qed.

Lemma squeeze_inside_starts (s : str) : starts_with_space (squeeze true s) = false.
Proof.
  induction s as [|x s IH]; [reflexivity|].
  cbn [squeeze]. destruct (isspace x) eqn:Ex; [exact IH|exact Ex].
Qed.

Lemma squeeze_single_spaced (s : str) :
  forall inside, single_spaced (squeeze inside s) = true.
Proof.
  induction s as [|x s IH]; intros inside; [reflexivity|].
  cbn [squeeze]. destruct (isspace x) eqn:Ex.
  - destruct inside; [apply IH|].
    cbn [single_spaced]. rewrite squeeze_inside_starts, IH, andb_false_r.
    reflexivity.
  - cbn [single_spaced]. rewrite Ex, IH. reflexivity.
Qed.

Lemma lstrip_starts (s : str) : starts_with_space (lstrip s) = false.
Proof.
  induction s as [|x s IH]; [reflexivity|].
  cbn [lstrip]. destruct (isspace x) eqn:Ex; [exact IH|exact Ex].
Qed.

Lemma lstrip_suffix (s : str) : exists pre, s = pre ++ lstrip s.
Proof.
  induction s as [|x s [pre IH]]; [exists []; reflexivity|].
  cbn [lstrip]. destruct (isspace x).
  - exists (x :: pre). cbn [app]. f_equal. exact IH.
  - exists []. reflexivity.
Qed.

Lemma rstrip_prefix (s : str) : exists post, s = rstrip s ++ post.
Proof.
  unfold rstrip. destruct (lstrip_suffix (rev s)) as [pre H].
  exists (rev pre). rewrite <- rev_app_distr, <- H, rev_involutive. reflexivity.
Qed.

Lemma single_spaced_tail (a : N) (s : str) :
  single_spaced (a :: s) = true -> single_spaced s = true.
Proof. cbn [single_spaced]. intros H. apply andb_prop in H. apply H. Qed.

Lemma single_spaced_suffix (pre s : str) :
  single_spaced (pre ++ s) = true -> single_spaced s = true.
Proof.
  induction pre as [|a pre IH]; [trivial|].
  intros H. apply IH. exact (single_spaced_tail _ _ H).
Qed.

Lemma starts_with_space_app (s post : str) :
  s <> [] -> starts_with_space (s ++ post) = starts_with_space s.
Proof. destruct s; [contradiction|reflexivity]. Qed.

Lemma single_spaced_prefix (s post : str) :
  single_spaced (s ++ post) = true -> single_spaced s = true.
Proof.
  induction s as [|a s IH]; [reflexivity|].
  cbn [app single_spaced]. intros H. apply andb_prop in H. destruct H as [H1 H2].
  rewrite (IH H2), andb_true_r.
  destruct s as [|b s]; [rewrite andb_false_r; reflexivity|exact H1].
Qed.

Lemma strip_single_spaced (s : str) :
  single_spaced s = true -> single_spaced (strip s) = true.
Proof.
  intros H. unfold strip.
  destruct (lstrip_suffix s) as [pre Hpre].
  destruct (rstrip_prefix (lstrip s)) as [post Hpost].
  apply single_spaced_prefix with (post := post). rewrite <- Hpost.
  apply single_spaced_suffix with (pre := pre). rewrite <- Hpre. exact H.
Qed.

Lemma strip_starts (s : str) : starts_with_space (strip s) = false.
Proof.
  unfold strip. destruct (rstrip_prefix (lstrip s)) as [post Hpost].
  destruct (rstrip (lstrip s)) as [|c r] eqn:E; [reflexivity|].
  rewrite <- (lstrip_starts s), Hpost. reflexivity.
Qed.

Lemma strip_ends (s : str) : starts_with_space (rev (strip s)) = false.
Proof.
  unfold strip, rstrip. rewrite rev_involutive. apply lstrip_starts.
Qed.

Lemma no_odd_space_forall (s : str) :
  forallb (fun c => negb (odd_space c)) s = true
  <-> Forall (fun c => odd_space c = false) s.
Proof.
  rewrite forallb_forall, Forall_forall.
  split; intros H c Hc; specialize (H c Hc);
    destruct (odd_space c); simpl in *; congruence.
Qed.

(** The last two steps of the pipeline leave normal spacing, whatever they
    are given. *)
Lemma finish_spacing (text : str) : normal_spacing (Clean.finish text) = true.
Proof.
  unfold Clean.finish, normal_spacing. rewrite sub_spaces_is_squeeze.
  rewrite strip_starts, strip_ends.
  rewrite (strip_single_spaced _ (squeeze_single_spaced text false)).
  rewrite (proj2 (no_odd_space_forall _)); [reflexivity|].
  apply strip_ok. apply no_odd_space_forall. apply squeeze_no_odd_space.
Qed.

Lemma strip_fixed (t : str) :
  starts_with_space t = false -> starts_with_space (rev t) = false ->
  strip t = t.
Proof.
  intros H1 H2. destruct t as [|c t]; [reflexivity|].
  apply strip_text.
  - cbn in *. rewrite H1. reflexivity.
  - destruct (rev (c :: t)) as [|d r] eqn:E.
    + apply (f_equal (@List.length N)) in E. rewrite length_rev in E. discriminate.
    + cbn in *. rewrite H2. reflexivity.
Qed.

(** [str.strip] has nothing to remove from its own result. *)
Lemma strip_strip (s : str) : strip (strip s) = strip s.
Proof. apply strip_fixed; [apply strip_starts|apply strip_ends]. Qed.

(** Text of normal spacing has nothing for [str.strip] to remove. *)
Lemma normal_spacing_strip (t : str) : normal_spacing t = true -> strip t = t.
Proof.
  unfold normal_spacing. intros H.
  apply andb_prop in H. destruct H as [H H4].
  apply andb_prop in H. destruct H as [_ H3].
  apply negb_true_iff in H3. apply negb_true_iff in H4.
  apply strip_fixed; assumption.
Qed.

(** ** What the normalizer returns *)

Lemma clean_events_returns (data : json) (text : str) :
  clean_events data = Ok (Some text) -> exists raw, text = Clean.tidy raw.
Proof.
  unfold clean_events, rbind.
  destruct (py_in (lit "events") data) as [[|]|]; try discriminate.
  destruct (py_getitem data (lit "events")); [|discriminate].
  destruct (py_iter a); [|discriminate].
  destruct (rfor visit_event a0); [|discriminate].
  destruct (py_join_space a1); [|discriminate].
  intros H. injection H as H. eexists. symmetry. exact H.
Qed.

Lemma clean_returns_finished (s t : str) :
  _clean_subtitle_text s = Ok t -> exists x, t = Clean.finish x.
Proof.
  assert (Hmarkup : forall y, Ok (Clean.clean_markup y) = Ok t ->
                              exists x, t = Clean.finish x).
  { intros y H. injection H as H. subst t. eexists. reflexivity. }
  unfold _clean_subtitle_text. destruct s as [|c s].
  - intros H. injection H as H. exists []. subst t. reflexivity.
  - cbn [truthy negb]. cbv iota.
    destruct (looks_like_json (c :: s)); [|apply Hmarkup].
    unfold json_branch.
    destruct (loads (c :: s)) as [data rest| | |];
      [|apply Hmarkup|apply Hmarkup|discriminate].
    destruct (clean_events data) as [[text|]|e] eqn:E.
    + intros H. injection H as H. subst t.
      destruct (clean_events_returns _ E) as [raw Hraw]. subst text.
      eexists. reflexivity.
    + apply Hmarkup.
    + destruct e; try discriminate; apply Hmarkup.
Qed.

Lemma clean_spacing (s t : str) :
  _clean_subtitle_text s = Ok t -> normal_spacing t = true.
Proof.
  intros H. destruct (clean_returns_finished _ H) as [x Hx]. subst t.
  apply finish_spacing.
Qed.

(** X1: whenever the normalizer returns, its result has normal spacing:
    the only whitespace left is the plain space, never two in a row and
    never at either end; in particular the result is a single line. *)
Theorem clean_result_spacing :
  forall s t : str, _clean_subtitle_text s = Ok t -> normal_spacing t = true.
Proof. intros s t. apply clean_spacing. Qed.

Lemma clean_result_spacing_witness :
  _clean_subtitle_text vtt_sample = Ok (lit "Hi world")
  /\ normal_spacing (lit "Hi world") = true.
Proof.
  assert (H : _clean_subtitle_text vtt_sample = Ok (lit "Hi world"))
    by (vm_compute; reflexivity).
  split; [exact H|]. exact (@clean_result_spacing vtt_sample _ H).
Defined.

Section Extracted.

Variable World : Type.
Variable urlopen : str -> World -> fetched * World.
Variable extract_info : str -> str -> World -> lookup * World.
Variable valid_url : str -> bool.

Lemma extracted_spacing (video_url language : str) (st : state World) :
  normal_spacing
    (fst (extract_subtitles urlopen extract_info valid_url video_url language st))
  = true.
Proof.
  unfold extract_subtitles.
  destruct (valid_url video_url); [|reflexivity].
  destruct (_extract_subtitle_content urlopen extract_info video_url language st)
    as [[c|] st']; [|reflexivity].
  destruct (truthy c); [|reflexivity].
  destruct (_clean_subtitle_text c) as [t|e] eqn:E; [|reflexivity].
  exact (clean_spacing _ E).
Qed.

End Extracted.

(** X2: the text [extract_subtitles] returns has normal spacing, on every
    path: the empty string of the failure paths has it, and so has every
    result of the normalizer.  Hence [str.strip] leaves it as it is. *)
Theorem extracted_text_spacing :
  forall (World : Type) (urlopen : str -> World -> fetched * World)
         (extract_info : str -> str -> World -> lookup * World)
         (valid_url : str -> bool) (video_url language : str)
         (st : state World),
    let text :=
      fst (extract_subtitles urlopen extract_info valid_url video_url language st)
    in normal_spacing text = true /\ strip text = text.
Proof.
  intros World urlopen extract_info valid_url video_url language st text.
  assert (H : normal_spacing text = true) by apply extracted_spacing.
  split; [exact H|apply normal_spacing_strip; exact H].
Qed.

(** ** Blank payloads *)

Lemma isspace_in (c : N) : isspace c = true -> In c whitespace.
Proof.
  unfold isspace, between, whitespace.
  rewrite !orb_true_iff, !andb_true_iff, !N.leb_le, !N.eqb_eq.
  cbn [In]. lia.
Qed.

Lemma whitespace_not_decimal (c : N) : isdecimal c = true -> isspace c = false.
Proof.
  intros Hd. destruct (isspace c) eqn:Es; [|reflexivity].
  assert (H : forallb (fun x => negb (isdecimal x)) whitespace = true)
    by (vm_compute; reflexivity).
  rewrite forallb_forall in H. specialize (H c (isspace_in _ Es)).
  rewrite Hd in H. discriminate.
Qed.

Lemma lstrip_blank (s : str) : forallb isspace s = true -> lstrip s = [].
Proof.
  induction s as [|x s IH]; [reflexivity|].
  cbn [forallb lstrip]. intros H. apply andb_prop in H. destruct H as [Hx Hs].
  rewrite Hx. apply IH. exact Hs.
Qed.

Lemma strip_blank (s : str) : forallb isspace s = true -> strip s = [].
Proof. intros H. unfold strip. rewrite (lstrip_blank _ H). reflexivity. Qed.

Lemma blank_forall (s : str) :
  forallb isspace s = true -> Forall (fun c => isspace c = true) s.
Proof. intros H. apply Forall_forall. apply forallb_forall. exact H. Qed.

Lemma blank_free (Q : N -> Prop) (s : str) :
  (forall c, Q c -> isspace c = false) -> forallb isspace s = true -> free Q s.
Proof.
  intros HQ H. apply blank_forall in H. unfold free.
  apply Forall_impl with (2 := H). intros c Hc Hq.
  rewrite (HQ c Hq) in Hc. discriminate.
Qed.

Ltac text_char :=
  let x := fresh "x" in
  let Hx := fresh "Hx" in
  intros x Hx; apply N.eqb_eq in Hx; subst x; reflexivity.

Ltac text_needed :=
  first [ solve [text_char]
        | solve [split; [apply le_n|exact whitespace_not_decimal]]
        | solve [left; text_needed]
        | solve [right; text_needed] ].

Lemma artifact_not_space (c : N) :
  oneof Pat.artifact_chars c = true -> isspace c = false.
Proof.
  unfold oneof. intros H. apply existsb_exists in H. destruct H as [d [Hd Hc]].
  apply N.eqb_eq in Hc. subst d.
  repeat (destruct Hd as [Hd|Hd]; [subst c; reflexivity|]). destruct Hd.
Qed.

(** Every pattern that [strip_markup] deletes holds a character that is not
    whitespace. *)
Lemma deletions_need_text :
  Forall (needs (fun c => isspace c = false))
    [ Pat.vtt_header; Pat.srt_timestamp; Pat.vtt_timestamp; Pat.sequence_number;
      Pat.tag; Pat.style_block; Pat.position_cue; Pat.align_cue; Pat.size_cue;
      Pat.artifact; Pat.json_token ].
Proof.
  repeat match goal with
  | |- Forall _ (_ :: _) => apply Forall_cons
  | |- Forall _ [] => apply Forall_nil
  end; try solve [cbn; text_needed].
  - exact artifact_not_space.
  - cbn. repeat split; text_needed.
Qed.

Lemma strip_markup_blank (s : str) :
  forallb isspace s = true -> Clean.strip_markup s = s.
Proof.
  intros H. unfold Clean.strip_markup.
  pose proof deletions_need_text as Hn.
  assert (Hfree : free (fun c => isspace c = false) s)
    by (apply blank_free; [trivial|exact H]).
  repeat match goal with
  | Hn : Forall _ (?r :: _) |- _ =>
      let H1 := fresh "H" in
      let H2 := fresh "H" in
      inversion Hn as [|? ? H1 H2]; subst; clear Hn;
      rewrite (@sub_no_match r _ s)
        by (exact (@needs_no_match _ r None s H1 Hfree));
      rename H2 into Hn
  end.
  reflexivity.
Qed.

Lemma collect_lines_blank (s : str) :
  forallb isspace s = true -> Clean.collect_lines s = [].
Proof.
  intros H. unfold Clean.collect_lines.
  pose proof (split_ok NL (blank_forall _ H)) as Hl.
  induction Hl as [|l ls Hl _ IH]; [reflexivity|].
  cbn [map filter]. rewrite strip_blank.
  - exact IH.
  - apply forallb_forall. apply Forall_forall. exact Hl.
Qed.

(** X3: a payload made of whitespace only is normalized to the empty
    string: it is not taken for JSON, no pattern matches in it, and no line
    of it is kept. *)
Theorem blank_payload_gives_empty :
  forall s : str, forallb isspace s = true -> _clean_subtitle_text s = Ok [].
Proof.
  intros s H. destruct s as [|c s]; [reflexivity|].
  unfold _clean_subtitle_text. cbn [truthy negb]. cbv iota.
  assert (Hj : looks_like_json (c :: s) = false).
  { unfold looks_like_json. rewrite (strip_blank _ H).
    apply orb_false_iff. split; [reflexivity|].
    apply contains_without_first.
    apply (@blank_free (fun x => x = DQ)); [|exact H].
    intros x Hx. subst x. reflexivity. }
  rewrite Hj. unfold Clean.clean_markup, Clean.tidy.
  rewrite (strip_markup_blank _ H), (collect_lines_blank _ H). reflexivity.
Qed.

Lemma blank_payload_gives_empty_witness :
  _clean_subtitle_text [32; NL; 9; 160; NL]%N = Ok [].
Proof.
  apply (@blank_payload_gives_empty [32; NL; 9; 160; NL]%N). reflexivity.
Defined.

(** ** Exceptions of the normalizer *)

Lemma ok_only_type_error (A : Type) (a : A) : only_type_error (Ok a).
Proof. intros e H. discriminate. Qed.

Lemma rbind_only_type_error (A B : Type) (m : result A) (f : A -> result B) :
  only_type_error m -> (forall a, m = Ok a -> only_type_error (f a)) ->
  only_type_error (rbind m f).
Proof.
  intros Hm Hf e. destruct m as [a|e']; simpl.
  - apply (Hf a). reflexivity.
  - intros H. injection H as H. subst e'. apply Hm. reflexivity.
Qed.

Lemma rfor_only_type_error (A B : Type) (body : A -> result (list B))
    (xs : list A) :
  (forall x, only_type_error (body x)) -> only_type_error (rfor body xs).
Proof.
  intros H. induction xs as [|x xs IH]; simpl; [apply ok_only_type_error|].
  apply rbind_only_type_error; [apply H|]. intros out _.
  apply rbind_only_type_error; [exact IH|]. intros rest _.
  apply ok_only_type_error.
Qed.

Lemma py_in_only_type_error (key : str) (v : json) : only_type_error (py_in key v).
Proof. intros e. destruct v; simpl; congruence. Qed.

Lemma py_iter_only_type_error (v : json) : only_type_error (py_iter v).
Proof. intros e. destruct v; simpl; congruence. Qed.

Lemma py_join_space_only_type_error (parts : list json) :
  only_type_error (py_join_space parts).
Proof.
  induction parts as [|p ps IH]; [apply ok_only_type_error|].
  intros e. cbn [py_join_space].
  destruct p; try congruence.
  destruct ps as [|q ps]; [discriminate|].
  apply rbind_only_type_error; [exact IH|]. intros rest _.
  apply ok_only_type_error.
Qed.

(** A subscript that follows a successful membership test does not raise
    [KeyError]. *)
Lemma py_getitem_after_in (key : str) (v : json) :
  py_in key v = Ok true -> only_type_error (py_getitem v key).
Proof.
  intros Hin e. destruct v; simpl in *; try congruence.
  destruct (dict_get members key); [discriminate|]. discriminate.
Qed.

Lemma visit_seg_only_type_error (seg : json) : only_type_error (visit_seg seg).
Proof.
  unfold visit_seg.
  apply rbind_only_type_error; [apply py_in_only_type_error|].
  intros [|] Hin; [|apply ok_only_type_error].
  apply rbind_only_type_error; [apply py_getitem_after_in; exact Hin|].
  intros v _. apply ok_only_type_error.
Qed.

Lemma visit_event_only_type_error (event : json) :
  only_type_error (visit_event event).
Proof.
  unfold visit_event.
  apply rbind_only_type_error; [apply py_in_only_type_error|].
  intros [|] Hin; [|apply ok_only_type_error].
  apply rbind_only_type_error; [apply py_getitem_after_in; exact Hin|].
  intros segs _.
  apply rbind_only_type_error; [apply py_iter_only_type_error|].
  intros items _. apply rfor_only_type_error. exact visit_seg_only_type_error.
Qed.

Lemma clean_events_only_type_error (data : json) :
  only_type_error (clean_events data).
Proof.
  unfold clean_events.
  apply rbind_only_type_error; [apply py_in_only_type_error|].
  intros [|] Hin; [|apply ok_only_type_error].
  apply rbind_only_type_error; [apply py_getitem_after_in; exact Hin|].
  intros events _.
  apply rbind_only_type_error; [apply py_iter_only_type_error|].
  intros items _.
  apply rbind_only_type_error;
    [apply rfor_only_type_error; exact visit_event_only_type_error|].
  intros text_parts _.
  apply rbind_only_type_error; [apply py_join_space_only_type_error|].
  intros raw_text _. apply ok_only_type_error.
Qed.

(** X4: the walk over the parsed events raises nothing but [TypeError]:
    every subscript follows a membership test on the same key, so no
    [KeyError] comes out of it, and nothing in it decodes JSON. *)
Theorem event_walk_raises_only_type_error :
  forall (data : json) (e : exn), clean_events data = Raise e -> e = TypeError.
Proof. intros data. exact (clean_events_only_type_error data). Qed.

Lemma event_walk_raises_only_type_error_witness :
  clean_events (JObj [(lit "events", JBool true)]) = Raise TypeError
  /\ TypeError = TypeError.
Proof.
  assert (H : clean_events (JObj [(lit "events", JBool true)]) = Raise TypeError)
    by (vm_compute; reflexivity).
  split; [exact H|]. exact (@event_walk_raises_only_type_error _ _ H).
Defined.

(** ** Exceptions of the normalizer, whatever [json.loads] does *)

Lemma open_branch_raises (json_loads : str -> result json) (s : str) (e : exn) :
  AnyLoads.json_branch json_loads s = Some (Raise e) ->
  (json_loads s = Raise e /\ e <> JSONDecodeError /\ e <> KeyError)
  \/ (e = TypeError
      /\ exists data, json_loads s = Ok data /\ clean_events data = Raise TypeError).
Proof.
  unfold AnyLoads.json_branch. destruct (json_loads s) as [data|e0]; cbn [rbind].
  - destruct (clean_events data) as [[text|]|e1] eqn:E; try discriminate.
    pose proof (@clean_events_only_type_error data e1 E) as He. subst e1.
    intros H. injection H as H. subst e.
    right. split; [reflexivity|]. exists data. split; [reflexivity|exact E].
  - destruct e0; try discriminate; intros H; injection H as H; subst e;
      left; repeat split; discriminate.
Qed.

(** With the scanner of this file as [json.loads], the function with
    [json.loads] left open is [_clean_subtitle_text]. *)
Lemma scanned_is_model (s : str) :
  AnyLoads._clean_subtitle_text AnyLoads.scanned s = _clean_subtitle_text s.
Proof.
  unfold AnyLoads._clean_subtitle_text, _clean_subtitle_text.
  destruct (negb (truthy s)); [reflexivity|].
  destruct (looks_like_json s); [|reflexivity].
  unfold AnyLoads.json_branch, json_branch, AnyLoads.scanned.
  destruct (loads s) as [data rest| | |]; reflexivity.
Qed.

(** X5: whatever [json.loads] returns or raises, an exception leaves the
    normalizer only from the [try] block, on a payload that looks like
    JSON: it is either the exception [json.loads] raised, when that is
    neither [JSONDecodeError] nor [KeyError] (the [ValueError] for an
    integer of too many digits, the [RecursionError] for input nested too
    deeply), or the [TypeError] of the walk over the value [json.loads]
    returned.  The markup branch raises nothing.  With the scanner of this
    file as [json.loads], the function so described is
    [_clean_subtitle_text]. *)
Theorem clean_raises_only_on_json :
  (forall (json_loads : str -> result json) (s : str) (e : exn),
      AnyLoads._clean_subtitle_text json_loads s = Raise e ->
      looks_like_json s = true
      /\ ((json_loads s = Raise e /\ e <> JSONDecodeError /\ e <> KeyError)
          \/ (e = TypeError
              /\ exists data,
                   json_loads s = Ok data
                   /\ clean_events data = Raise TypeError)))
  /\ (forall s : str,
        AnyLoads._clean_subtitle_text AnyLoads.scanned s = _clean_subtitle_text s).
Proof.
  split; [|exact scanned_is_model].
  intros json_loads s e. unfold AnyLoads._clean_subtitle_text.
  destruct (negb (truthy s)); [discriminate|].
  destruct (looks_like_json s); [|discriminate].
  destruct (AnyLoads.json_branch json_loads s) as [[t|e']|] eqn:E;
    try discriminate.
  intros H. injection H as H. subst e'.
  split; [reflexivity|]. exact (open_branch_raises _ _ E).
Qed.

Lemma clean_raises_only_on_json_witness :
  (AnyLoads._clean_subtitle_text AnyLoads.scanned json_events_number
     = Raise TypeError
   /\ looks_like_json json_events_number = true)
  /\ (AnyLoads._clean_subtitle_text AnyLoads.scanned json_long_integer
      = Raise ValueError
      /\ AnyLoads.scanned json_long_integer = Raise ValueError)
  /\ (AnyLoads._clean_subtitle_text too_deep (lit "{}") = Raise RecursionError
      /\ looks_like_json (lit "{}") = true).
Proof.
  assert (H1 : AnyLoads._clean_subtitle_text AnyLoads.scanned json_events_number
               = Raise TypeError) by (vm_compute; reflexivity).
  assert (H2 : AnyLoads._clean_subtitle_text AnyLoads.scanned json_long_integer
               = Raise ValueError) by (vm_compute; reflexivity).
  assert (H3 : AnyLoads._clean_subtitle_text too_deep (lit "{}")
               = Raise RecursionError) by (vm_compute; reflexivity).
  split; [|split].
  - split; [exact H1|].
    exact (proj1 (proj1 clean_raises_only_on_json _ _ _ H1)).
  - split; [exact H2|].
    destruct (proj2 (proj1 clean_raises_only_on_json _ _ _ H2))
      as [[H _]|[H _]]; [exact H|discriminate].
  - split; [exact H3|].
    exact (proj1 (proj1 clean_raises_only_on_json _ _ _ H3)).
Defined.

(** ** The resolver: what it returns and what it opens *)

Section Opening.

Variable World : Type.
Variable urlopen : str -> World -> fetched * World.

Lemma try_each_not_empty (lists : list (list format_info)) :
  forall (st : state World) (content : str),
    fst (try_each urlopen lists st) = Some content -> content <> [].
Proof.
  induction lists as [|formats lists IH]; intros st content; [discriminate|].
  cbn [try_each]. unfold or_else.
  destruct (_download_subtitle_content urlopen formats st) as [c st'].
  destruct (content_truthy c) eqn:Ec; [|apply IH].
  cbn [fst]. intros H. subst c. destruct content; [discriminate|discriminate].
Qed.

Lemma download_opens (formats : list format_info) :
  forall st : state World,
    exists n,
      opened (snd (_download_subtitle_content urlopen formats st))
      = opened st ++ firstn n (tried formats)
      /\ (fst (_download_subtitle_content urlopen formats st) = None ->
          firstn n (tried formats) = tried formats)
      /\ (fst (_download_subtitle_content urlopen formats st) <> None -> 0 < n).
Proof.
  induction formats as [|f rest IH]; intros st.
  - exists 0. cbn. rewrite app_nil_r. repeat split. intros H. contradiction.
  - cbn [_download_subtitle_content tried].
    destruct (url f) as [[|c u]|]; cbn [truthy]; try apply IH.
    unfold open_url. destruct (urlopen (c :: u) (world st)) as [[text|] w].
    + exists 1. cbn. repeat split; [discriminate|intros _; lia].
    + destruct (IH {| world := w; opened := opened st ++ [c :: u] |})
        as [n [H1 [H2 H3]]].
      exists (S n). cbn [firstn]. split; [|split].
      * etransitivity; [exact H1|]. cbn [opened].
        rewrite <- app_assoc. reflexivity.
      * intros H. f_equal. apply H2. exact H.
      * intros _. lia.
Qed.

Lemma firstn_incl (A : Type) (n : nat) (l : list A) : incl (firstn n l) l.
Proof.
  intros x Hx. rewrite <- (firstn_skipn n l). apply in_or_app. left. exact Hx.
Qed.

Lemma try_each_opens (lists : list (list format_info)) :
  forall st : state World,
    exists l,
      opened (snd (try_each urlopen lists st)) = opened st ++ l
      /\ incl l (List.concat (map tried lists)).
Proof.
  induction lists as [|formats lists IH]; intros st.
  - exists []. cbn. rewrite app_nil_r. split; [reflexivity|apply incl_refl].
  - cbn [try_each map List.concat]. unfold or_else.
    destruct (download_opens formats st) as [n [H1 _]].
    destruct (_download_subtitle_content urlopen formats st) as [c st'].
    cbn [snd] in H1. destruct (content_truthy c).
    + exists (firstn n (tried formats)). split; [exact H1|].
      apply incl_appl. apply firstn_incl.
    + destruct (IH st') as [l [H2 H3]].
      exists (firstn n (tried formats) ++ l). split.
      * etransitivity; [exact H2|]. rewrite H1, <- app_assoc. reflexivity.
      * apply incl_app; [apply incl_appl; apply firstn_incl|apply incl_appr; exact H3].
Qed.

Lemma try_each_trace (lists : list (list format_info)) :
  Forall (Forall (fails urlopen)) lists ->
  forall st : state World,
    fst (try_each urlopen lists st) = None
    /\ opened (snd (try_each urlopen lists st))
       = opened st ++ List.concat (map tried lists).
Proof.
  induction 1 as [|formats lists Hf _ IH]; intros st.
  - cbn. rewrite app_nil_r. split; reflexivity.
  - cbn [try_each map List.concat]. unfold or_else.
    destruct (download_failing st Hf) as [H1 H2].
    destruct (_download_subtitle_content urlopen formats st) as [c st'].
    cbn [fst snd] in H1, H2. subst c. cbn [content_truthy].
    destruct (IH st') as [H3 H4]. split; [exact H3|].
    etransitivity; [exact H4|]. rewrite H2, <- app_assoc. reflexivity.
Qed.

End Opening.

Lemma tried_listed (d : catalog) (key : str) (formats : list format_info) :
  In (key, formats) d -> incl (tried formats) (locations d).
Proof.
  intros H u Hu. unfold locations. apply in_concat.
  exists (tried formats). split; [|exact Hu].
  apply in_map_iff. exists (key, formats). split; [reflexivity|exact H].
Qed.

Lemma dict_get_listed (V : Type) (d : list (str * V)) (key : str) (v : V) :
  dict_get d key = Some v -> exists k, In (k, v) d.
Proof.
  induction d as [|[k w] d IH]; [discriminate|].
  cbn [dict_get]. destruct (PyStr.eqb k key).
  - intros H. injection H as H. subst w. exists k. left. reflexivity.
  - intros H. destruct (IH H) as [k' Hk]. exists k'. right. exact Hk.
Qed.

Lemma first_variant_listed (d : catalog) (language : str)
    (formats : list format_info) :
  first_variant d language = Some formats -> exists k, In (k, formats) d.
Proof.
  induction d as [|[k w] d IH]; [discriminate|].
  cbn [first_variant]. destruct (startswith (language ++ lit "-") k).
  - intros H. injection H as H. subst w. exists k. left. reflexivity.
  - intros H. destruct (IH H) as [k' Hk]. exists k'. right. exact Hk.
Qed.

Lemma first_formats_listed (d : catalog) (formats : list format_info) :
  first_formats d = Some formats -> exists k, In (k, formats) d.
Proof.
  destruct d as [|[k w] d]; [discriminate|].
  intros H. injection H as H. subst w. exists k. left. reflexivity.
Qed.

Lemma pick_listed (d : catalog) (language : str) (formats : list format_info) :
  pick d language = Some formats -> exists k, In (k, formats) d.
Proof.
  unfold pick.
  destruct (dict_get d language) as [f|] eqn:E1.
  - intros H. injection H as H. subst f. exact (dict_get_listed _ _ E1).
  - destruct (first_variant d language) as [f|] eqn:E2.
    + intros H. injection H as H. subst f. exact (first_variant_listed _ _ E2).
    + apply first_formats_listed.
Qed.

Lemma present_in (A : Type) (l : list (option A)) (a : A) :
  In a (present l) -> In (Some a) l.
Proof.
  induction l as [|[b|] l IH]; cbn [present]; [trivial| |].
  - intros [H|H]; [left; f_equal; exact H|right; apply IH; exact H].
  - intros H. right. apply IH. exact H.
Qed.

Lemma candidates_listed (subtitles automatic_captions : catalog)
    (language : str) :
  incl (List.concat (map tried (candidates subtitles automatic_captions language)))
       (locations subtitles ++ locations automatic_captions).
Proof.
  intros u Hu. apply in_concat in Hu. destruct Hu as [l [Hl Hu]].
  apply in_map_iff in Hl. destruct Hl as [formats [Hl Hf]]. subst l.
  unfold candidates in Hf. apply present_in in Hf.
  apply in_or_app.
  destruct Hf as [Hf|[Hf|[Hf|[Hf|[]]]]].
  - left. destruct (pick_listed _ _ Hf) as [k Hk]. exact (tried_listed _ _ _ Hk u Hu).
  - right. destruct (pick_listed _ _ Hf) as [k Hk]. exact (tried_listed _ _ _ Hk u Hu).
  - left. destruct (first_formats_listed _ Hf) as [k Hk].
    exact (tried_listed _ _ _ Hk u Hu).
  - right. destruct (first_formats_listed _ Hf) as [k Hk].
    exact (tried_listed _ _ _ Hk u Hu).
Qed.

(** X6: a payload that comes out of the resolver, and so out of
    [_extract_subtitle_content], is never the empty string: an empty
    download is passed over like a failed one. *)
Theorem resolved_payload_not_empty :
  forall (World : Type) (urlopen : str -> World -> fetched * World)
         (extract_info : str -> str -> World -> lookup * World),
    (forall subtitles automatic_captions language st content,
        fst (_resolve_subtitle_priority urlopen subtitles automatic_captions
               language st) = Some content ->
        content <> [])
    /\ (forall video_url language st content,
        fst (_extract_subtitle_content urlopen extract_info video_url language st)
          = Some content ->
        content <> []).
Proof.
  intros World urlopen extract_info.
  assert (H : forall subtitles automatic_captions language st content,
             fst (_resolve_subtitle_priority urlopen subtitles automatic_captions
                    language st) = Some content -> content <> []).
  { intros subs autos L st c. rewrite resolve_try_each. apply try_each_not_empty. }
  split; [exact H|].
  intros video_url L st c. unfold _extract_subtitle_content.
  destruct (extract_info video_url L (world st)) as [[subs autos|] w];
    [apply H|discriminate].
Qed.

Lemma resolved_payload_not_empty_witness :
  fst (_resolve_subtitle_priority net_empty_first manual_en auto_en en start)
    = Some (lit "auto text")
  /\ lit "auto text" <> [].
Proof.
  assert (H : fst (_resolve_subtitle_priority net_empty_first manual_en auto_en
                     en start) = Some (lit "auto text")) by reflexivity.
  split; [exact H|].
  exact (proj1 (@resolved_payload_not_empty unit net_empty_first no_lookup)
           manual_en auto_en en start (lit "auto text") H).
Defined.


(** X8: [extract_subtitles] opens nothing but locations that the lookup
    listed for the video, in the manual or the automatic mapping; when the
    address is refused or the lookup raises it opens nothing. *)
Theorem only_listed_locations_opened :
  forall (World : Type) (urlopen : str -> World -> fetched * World)
         (extract_info : str -> str -> World -> lookup * World)
         (valid_url : str -> bool) (video_url language : str)
         (st : state World),
    exists l,
      opened (snd (extract_subtitles urlopen extract_info valid_url video_url
                     language st)) = opened st ++ l
      /\ (valid_url video_url = false -> l = [])
      /\ match fst (extract_info video_url language (world st)) with
         | Info subtitles automatic_captions =>
             incl l (locations (or_empty subtitles)
                     ++ locations (or_empty automatic_captions))
         | LookupFailed => l = []
         end.
Proof.
  intros World urlopen extract_info valid_url video_url L st.
  assert (Hnone : exists l : list str,
             opened st = opened st ++ l
             /\ (valid_url video_url = false -> l = [])
             /\ match fst (extract_info video_url L (world st)) with
                | Info subtitles automatic_captions =>
                    incl l (locations (or_empty subtitles)
                            ++ locations (or_empty automatic_captions))
                | LookupFailed => l = []
                end).
  { exists []. rewrite app_nil_r. split; [reflexivity|split; [reflexivity|]].
    destruct (fst (extract_info video_url L (world st)));
      [apply incl_nil_l|reflexivity]. }
  unfold extract_subtitles. destruct (valid_url video_url) eqn:Ev; [|exact Hnone].
  assert (Hc : exists l,
             opened (snd (_extract_subtitle_content urlopen extract_info
                            video_url L st)) = opened st ++ l
             /\ match fst (extract_info video_url L (world st)) with
                | Info subtitles automatic_captions =>
                    incl l (locations (or_empty subtitles)
                            ++ locations (or_empty automatic_captions))
                | LookupFailed => l = []
                end).
  { unfold _extract_subtitle_content.
    destruct (extract_info video_url L (world st)) as [[subs autos|] w]; cbn [fst].
    - rewrite resolve_try_each.
      destruct (try_each_opens urlopen
                  (candidates (or_empty subs) (or_empty autos) L)
                  {| world := w; opened := opened st |}) as [l [H1 H2]].
      exists l. split; [exact H1|].
      intros u Hu. apply candidates_listed with (language := L). apply H2. exact Hu.
    - exists []. cbn. rewrite app_nil_r. split; reflexivity. }
  destruct Hc as [l [H1 H2]].
  exists l. split; [|split; [discriminate|exact H2]].
  destruct (_extract_subtitle_content urlopen extract_info video_url L st)
    as [[c|] st']; cbn [snd] in H1 |- *; [|exact H1].
  destruct (truthy c); [|exact H1].
  destruct (_clean_subtitle_text c); exact H1.
Qed.

(** X9: when no location of the candidate lists can be retrieved, the
    resolver returns [None] after opening the locations of every candidate
    in order.  A format list that is a candidate twice, as the only manual
    track is, has its locations opened twice. *)
Theorem failed_candidates_all_opened :
  forall (World : Type) (urlopen : str -> World -> fetched * World)
         (subtitles automatic_captions : catalog) (language : str)
         (st : state World),
    Forall (Forall (fails urlopen))
      (candidates subtitles automatic_captions language) ->
    fst (_resolve_subtitle_priority urlopen subtitles automatic_captions
           language st) = None
    /\ opened (snd (_resolve_subtitle_priority urlopen subtitles
                      automatic_captions language st))
       = opened st
         ++ List.concat (map tried (candidates subtitles automatic_captions language)).
Proof.
  intros World urlopen subs autos L st H.
  rewrite resolve_try_each. apply try_each_trace. exact H.
Qed.

Lemma failed_candidates_all_opened_witness :
  fst (_resolve_subtitle_priority net_down manual_fr auto_en en start) = None
  /\ opened (snd (_resolve_subtitle_priority net_down manual_fr auto_en en start))
     = [lit manual_loc; lit auto_loc; lit manual_loc; lit auto_loc].
Proof.
  apply (@failed_candidates_all_opened unit net_down manual_fr auto_en en start).
  repeat constructor; right; intros w; reflexivity.
Defined.

(** ** The URL checks *)

Lemma cli_check_is_extractor_check (urlparse : str -> url_parts) (v : str) :
  Cli.validate_url urlparse v = _validate_url urlparse v.
Proof.
  unfold Cli.validate_url, _validate_url, has_scheme_and_netloc, py_and.
  destruct (urlparse v) as [[|a scheme] [|b netloc]|]; reflexivity.
Qed.

(** X10: the URL check of the command line, written with [and], and the
    one of the extractor, written with [all], accept the same addresses;
    the check of the request model accepts [v] exactly when [v.strip()] is
    not empty and passes them. *)
Theorem url_checks_agree :
  forall (urlparse : str -> url_parts) (v : str),
    Cli.validate_url urlparse v = _validate_url urlparse v
    /\ Api.validate_url urlparse v
       = if truthy (strip v) && _validate_url urlparse (strip v)
         then Api.Valid (strip v)
         else Api.Invalid_field
                (if truthy (strip v) then lit "Invalid URL format"
                 else lit "URL cannot be empty").
Proof.
  intros urlparse v. split.
  - apply cli_check_is_extractor_check.
  - unfold Api.validate_url, _validate_url.
    destruct v as [|c v]; [reflexivity|]. cbn [truthy negb orb].
    destruct (truthy (strip (c :: v))); [|reflexivity]. cbn [negb andb].
    destruct (has_scheme_and_netloc (urlparse (strip (c :: v)))); reflexivity.
Qed.

(** X11: an address the request model accepts is stored stripped, passes
    the check of the extractor, and is accepted unchanged when it is
    validated again. *)
Theorem accepted_url_is_stable :
  forall (urlparse : str -> url_parts) (v u : str),
    Api.validate_url urlparse v = Api.Valid u ->
    u = strip v /\ u <> [] /\ _validate_url urlparse u = true
    /\ Api.validate_url urlparse u = Api.Valid u.
Proof.
  intros urlparse v u. unfold Api.validate_url at 1.
  destruct (negb (truthy v) || negb (truthy (strip v))) eqn:E1; [discriminate|].
  destruct (has_scheme_and_netloc (urlparse (strip v))) eqn:E2; [|discriminate].
  intros H. injection H as H. subst u.
  apply orb_false_iff in E1. destruct E1 as [_ E1]. apply negb_false_iff in E1.
  split; [reflexivity|split; [|split]].
  - intros H. rewrite H in E1. discriminate.
  - exact E2.
  - unfold Api.validate_url. rewrite strip_strip, E1, E2. reflexivity.
Qed.

Lemma accepted_url_is_stable_witness :
  lit "https://video/1" = strip (lit " https://video/1 ")
  /\ lit "https://video/1" <> []
  /\ _validate_url example_urlparse (lit "https://video/1") = true
  /\ Api.validate_url example_urlparse (lit "https://video/1")
     = Api.Valid (lit "https://video/1").
Proof.
  apply (@accepted_url_is_stable example_urlparse (lit " https://video/1 ")).
  vm_compute. reflexivity.
Defined.

(** ** The command line and the endpoint *)

Section MainOutcomes.

Variable World : Type.
Variable urlopen : str -> World -> fetched * World.
Variable extract_info : str -> str -> World -> lookup * World.
Variable urlparse : str -> url_parts.

(** Once the check of the command line has passed, the extractor's own
    check passes, and the state [extract_subtitles] leaves is the one the
    lookup and the downloads leave. *)
Lemma extracted_after_check (video_url language : str) (st : state World) :
  Cli.validate_url urlparse video_url = true ->
  snd (extract_subtitles urlopen extract_info (_validate_url urlparse)
         video_url language st)
  = snd (_extract_subtitle_content urlopen extract_info video_url language st).
Proof.
  rewrite cli_check_is_extractor_check. intros Hv.
  unfold extract_subtitles. rewrite Hv.
  destruct (_extract_subtitle_content urlopen extract_info video_url language st)
    as [[c|] st']; [|reflexivity].
  destruct (truthy c); [|reflexivity].
  destruct (_clean_subtitle_text c); reflexivity.
Qed.

Lemma no_line_break (text : str) : normal_spacing text = true -> ~ In NL text.
Proof.
  unfold normal_spacing. intros Hs Hin.
  apply andb_prop in Hs. destruct Hs as [Hs _].
  apply andb_prop in Hs. destruct Hs as [Hs _].
  apply andb_prop in Hs. destruct Hs as [Hs _].
  rewrite forallb_forall in Hs. specialize (Hs NL Hin). discriminate.
Qed.

End MainOutcomes.

(** X12: how [main] ends.  With an address its check refuses, it exits
    with status 2 and the state is as before: nothing has been looked up,
    opened or printed.  Otherwise the extractor's own check passes too and
    the lookup is made; with [text] the result of [extract_subtitles],
    [main] exits with status 1 and the message that no subtitles were
    found when [text] is empty; it ends after printing [text], one line of
    normal spacing that is not empty, and a line break when [print]
    returns; and it exits with status 1 and the message of the exception
    when [print] raises.  Nothing is opened after the extraction. *)
Theorem cli_main_outcomes :
  forall (World : Type) (urlopen : str -> World -> fetched * World)
         (extract_info : str -> str -> World -> lookup * World)
         (urlparse : str -> url_parts)
         (print_out : str -> World -> Cli.written * World)
         (a : Cli.args) (st : state World),
    let r := Cli.main urlopen extract_info urlparse print_out a st in
    let extracted :=
      extract_subtitles urlopen extract_info (_validate_url urlparse)
        (Cli.url a) (Cli.language a) st in
    let text := fst extracted in
    let printed := print_out text (world (snd extracted)) in
    if Cli.validate_url urlparse (Cli.url a)
    then snd extracted
         = snd (_extract_subtitle_content urlopen extract_info
                  (Cli.url a) (Cli.language a) st)
         /\ opened (snd r) = opened (snd extracted)
         /\ match fst r with
            | Cli.Printed out =>
                out = text ++ [NL] /\ text <> []
                /\ fst printed = Cli.Written
                /\ normal_spacing text = true /\ ~ In NL text
            | Cli.Exit code error_line =>
                (text = [] /\ snd r = snd extracted
                 /\ Cli.Exit code error_line
                    = Cli.exit_with_error
                        (lit "No subtitles found for language '"
                         ++ Cli.language a ++ lit "' at " ++ Cli.url a) 1)
                \/ (text <> []
                    /\ exists message,
                         fst printed = Cli.WriteFailed message
                         /\ Cli.Exit code error_line
                            = Cli.exit_with_error
                                (lit "Failed to extract subtitles: " ++ message) 1)
            end
    else r = (Cli.exit_with_error (lit "Invalid URL format: " ++ Cli.url a) 2, st).
Proof.
  intros World urlopen extract_info urlparse print_out a st r extracted text
    printed.
  destruct (Cli.validate_url urlparse (Cli.url a)) eqn:Hv.
  - pose proof (extracted_after_check urlopen extract_info urlparse (Cli.url a)
                  (Cli.language a) st Hv) as Hst.
    pose proof (extracted_spacing urlopen extract_info (_validate_url urlparse)
                  (Cli.url a) (Cli.language a) st) as Hs.
    fold extracted in Hst, Hs. fold text in Hs.
    split; [exact Hst|].
    subst r printed. unfold Cli.main. rewrite Hv. cbn [negb].
    fold extracted. subst text.
    destruct extracted as [subtitles st']. cbn [fst snd] in *.
    destruct subtitles as [|x subtitles]; cbn [truthy negb].
    + cbn [fst snd]. split; [reflexivity|]. left.
      split; [reflexivity|split; reflexivity].
    + unfold Cli.print_subtitles.
      destruct (print_out (x :: subtitles) (world st')) as [[|message] w];
        cbn [fst snd opened].
      * split; [reflexivity|].
        split; [reflexivity|split; [discriminate|split; [reflexivity|]]].
        split; [exact Hs|exact (@no_line_break _ Hs)].
      * split; [reflexivity|]. right. split; [discriminate|].
        exists message. split; reflexivity.
  - subst r. unfold Cli.main. rewrite Hv. reflexivity.
Qed.

(** X13: what the endpoint answers once the request is accepted.  The
    extractor raises nothing, so the handlers for status 400 and 500 are
    not entered: the answer is status 404 exactly when the extracted text
    is empty, and otherwise the response model with that text, which is
    not empty and has normal spacing.  The comparison of
    [subtitles.strip()] with the empty string, second half of the test,
    never decides. *)
Theorem endpoint_answers :
  forall (World : Type) (urlopen : str -> World -> fetched * World)
         (extract_info : str -> str -> World -> lookup * World)
         (urlparse : str -> url_parts) (request : Api.SubtitleRequest)
         (st : state World),
    let extracted :=
      extract_subtitles urlopen extract_info (_validate_url urlparse)
        (Api.url request) (Api.language request) st in
    let r := Api.extract_subtitles_endpoint urlopen extract_info urlparse request st in
    snd r = snd extracted
    /\ match fst r with
       | Api.SubtitleResponse text language =>
           text = fst extracted /\ language = Api.language request
           /\ text <> [] /\ normal_spacing text = true
       | Api.HTTPException code _ => code = 404 /\ fst extracted = []
       end.
Proof.
  intros World urlopen extract_info urlparse request st extracted r.
  subst r. unfold Api.extract_subtitles_endpoint, Api.run_subtitle_extraction.
  pose proof (extracted_spacing urlopen extract_info (_validate_url urlparse)
                (Api.url request) (Api.language request) st) as Hs.
  fold extracted in Hs. fold extracted.
  destruct extracted as [text st']. cbn [fst snd] in *.
  rewrite (normal_spacing_strip _ Hs).
  destruct text as [|x text]; [split; [reflexivity|split; reflexivity]|].
  cbn [truthy negb orb PyStr.eqb]. cbn [fst snd].
  split; [reflexivity|].
  split; [reflexivity|split; [reflexivity|split; [discriminate|exact Hs]]].
Qed.

(** ** The lines that are kept *)

Lemma special_run_to_end (l : str) :
  forall lo prev cs,
    forallb special l = true -> lo <= List.length l ->
    rep true special lo prev l cs (fun p s cs' => run (Eol false) p s cs' accept)
    = Some ([], cs).
Proof.
  induction l as [|x l IH]; intros lo prev cs Hall Hlo.
  - cbn [List.length] in Hlo. replace lo with 0 by lia. reflexivity.
  - cbn [forallb] in Hall. apply andb_prop in Hall. destruct Hall as [Hx Hl].
    cbn [rep]. rewrite Hx. rewrite IH; [reflexivity|exact Hl|].
    cbn [List.length] in Hlo. lia.
Qed.

Lemma special_run_stopped (l : str) :
  forall lo prev cs,
    existsb (fun c => negb (special c)) l = true ->
    rep true special lo prev l cs (fun p s cs' => run (Eol false) p s cs' accept)
    = None.
Proof.
  induction l as [|x l IH]; intros lo prev cs Hex; [discriminate|].
  cbn [existsb] in Hex. cbn [rep]. destruct (special x) eqn:Ex.
  - cbn [negb orb] in Hex. rewrite (IH _ _ _ Hex).
    destruct lo; [|reflexivity]. cbn [run at_eol].
    destruct l as [|y l]; [discriminate|]. rewrite andb_false_r. reflexivity.
  - destruct lo; [|reflexivity]. cbn [run at_eol].
    assert (Hn : (x =? NL)%N = false).
    { apply N.eqb_neq. intros H. subst x. discriminate. }
    rewrite Hn. reflexivity.
Qed.

Lemma all_or_other (f : N -> bool) (l : str) :
  forallb f l = negb (existsb (fun c => negb (f c)) l).
Proof.
  induction l as [|x l IH]; [reflexivity|].
  cbn [forallb existsb]. rewrite IH. destruct (f x); reflexivity.
Qed.

(** [re.match] of the line pattern succeeds on the lines that are not empty
    and hold special characters only. *)
Lemma special_line_match (line : str) :
  re_match Pat.special_line line = truthy line && forallb special line.
Proof.
  unfold re_match, match_here, Pat.special_line.
  cbn [seq run at_bol]. fold special.
  destruct (existsb (fun c => negb (special c)) line) eqn:E.
  - rewrite (special_run_stopped _ _ _ _ E), all_or_other, E, andb_false_r.
    reflexivity.
  - assert (Hall : forallb special line = true) by (rewrite all_or_other, E; reflexivity).
    rewrite Hall, andb_true_r. destruct line as [|x l]; [reflexivity|].
    rewrite special_run_to_end; [reflexivity|exact Hall|cbn [List.length]; lia].
Qed.

Lemma other_than_special (line : str) :
  existsb (fun c => negb (special c)) line = true -> str_isspace line = false.
Proof.
  intros H. destruct line as [|x l]; [reflexivity|].
  unfold str_isspace. rewrite all_or_other. apply negb_false_iff.
  apply existsb_exists in H. destruct H as [c [Hc Hs]].
  apply existsb_exists. exists c. split; [exact Hc|].
  unfold special in Hs. apply negb_true_iff in Hs. apply orb_false_iff in Hs.
  destruct Hs as [Hs _]. rewrite Hs. reflexivity.
Qed.

(** X14: the line loop keeps a line exactly when it holds a character that
    is neither whitespace nor a bracket, a brace, a comma, a quote or a
    colon.  The test [not line.isspace()] adds nothing to the two other
    tests of the condition. *)
Theorem kept_lines :
  forall line : str,
    Clean.keep_line line = existsb (fun c => negb (special c)) line
    /\ Clean.keep_line line
       = truthy line && negb (re_match Pat.special_line line).
Proof.
  intros line. unfold Clean.keep_line. rewrite special_line_match.
  destruct (existsb (fun c => negb (special c)) line) eqn:E.
  - rewrite (other_than_special _ E), all_or_other, E.
    destruct line as [|x l]; [discriminate|]. split; reflexivity.
  - rewrite all_or_other, E.
    destruct (truthy line), (str_isspace line); split; reflexivity.
Qed.

(** ** Payloads of digits *)

Lemma decimal_not_newline (d : N) : isdecimal d = true -> (d =? NL)%N = false.
Proof.
  intros H. apply N.eqb_neq. intros E. subst d. discriminate.
Qed.

(** From a digit on, digits up to the end of the text are a cue number. *)
Lemma digits_run_to_end (l : str) :
  forall lo prev,
    forallb isdecimal l = true -> lo <= List.length l ->
    rep true Pat.digit lo prev l []
      (fun p s cs => run (seq [Rep true 0 Pat.space; Eol true]) p s cs accept)
    = Some ([], []).
Proof.
  induction l as [|x l IH]; intros lo prev Hall Hlo.
  - cbn [List.length] in Hlo. replace lo with 0 by lia. reflexivity.
  - cbn [forallb] in Hall. apply andb_prop in Hall. destruct Hall as [Hx Hl].
    cbn [rep]. unfold Pat.digit at 1. rewrite Hx.
    rewrite IH; [reflexivity|exact Hl|]. cbn [List.length] in Hlo. lia.
Qed.

Lemma sequence_number_whole (x : N) (l : str) :
  forallb isdecimal (x :: l) = true ->
  match_here Pat.sequence_number None (x :: l) = Some ([], []).
Proof.
  intros H. unfold match_here, Pat.sequence_number.
  change (seq [Bol true; Rep true 1 Pat.digit; Rep true 0 Pat.space; Eol true])
    with (Seq (Bol true)
            (Seq (Rep true 1 Pat.digit) (seq [Rep true 0 Pat.space; Eol true]))).
  cbn [run at_bol].
  apply digits_run_to_end; [exact H|cbn [List.length]; lia].
Qed.

Lemma sequence_number_skipped (l : str) :
  forall d,
    isdecimal d = true -> forallb isdecimal l = true ->
    sub_from Pat.sequence_number Pat.t_empty (Some d) l (List.length l) = [].
Proof.
  induction l as [|y l IH]; intros d Hd Hl.
  - cbn [List.length]. rewrite sub_from_nil.
    unfold match_here, Pat.sequence_number. cbn [seq run at_bol andb].
    rewrite (decimal_not_newline _ Hd). reflexivity.
  - cbn [forallb] in Hl. apply andb_prop in Hl. destruct Hl as [Hy Hl].
    cbn [List.length]. rewrite sub_from_skip. apply IH; assumption.
Qed.

(** A text of digits is deleted as a whole. *)
Lemma sequence_number_deletes_digits (s : str) :
  forallb isdecimal s = true -> sub Pat.sequence_number Pat.t_empty s = [].
Proof.
  intros H. destruct s as [|x l]; [reflexivity|].
  unfold sub. rewrite sub_from_cons, (sequence_number_whole _ _ H).
  replace (List.length (x :: l) - List.length (@nil N)) with (S (List.length l))
    by (cbn [List.length]; lia).
  cbn [forallb] in H. apply andb_prop in H. destruct H as [Hx Hl].
  cbn [expand Pat.t_empty app]. apply sequence_number_skipped; assumption.
Qed.

Lemma digits_free (Q : N -> Prop) (s : str) :
  (forall c, Q c -> isdecimal c = false) -> forallb isdecimal s = true -> free Q s.
Proof.
  intros HQ H. unfold free. apply Forall_forall. intros c Hc Hq.
  rewrite forallb_forall in H. specialize (HQ c Hq).
  rewrite (H c Hc) in HQ. discriminate.
Qed.

Lemma digits_are_text (s : str) :
  forallb isdecimal s = true -> s <> [] ->
  starts_with_text s = true /\ starts_with_text (rev s) = true.
Proof.
  intros H Hne.
  assert (Hstart : forall l, forallb isdecimal l = true -> l <> [] ->
                             starts_with_text l = true).
  { intros [|c l] Hl Hn; [contradiction|].
    cbn [forallb] in Hl. apply andb_prop in Hl. destruct Hl as [Hc _].
    cbn [starts_with_text]. rewrite (whitespace_not_decimal _ Hc). reflexivity. }
  split; [apply Hstart; assumption|]. apply Hstart.
  - rewrite forallb_forall in *. intros c Hc. apply H. apply in_rev. exact Hc.
  - intros E. apply Hne. rewrite <- (rev_involutive s), E. reflexivity.
Qed.

(** X15: a payload made of decimal digits only is normalized to the empty
    string: it is not taken for JSON, and the pattern for cue numbers
    deletes it as a whole. *)
Theorem digits_payload_gives_empty :
  forall s : str, forallb isdecimal s = true -> _clean_subtitle_text s = Ok [].
Proof.
  intros s H. destruct s as [|x l] eqn:Es; [reflexivity|]. rewrite <- Es in *.
  assert (Hne : s <> []) by (rewrite Es; discriminate).
  unfold _clean_subtitle_text.
  replace (truthy s) with true by (rewrite Es; reflexivity). cbn [negb].
  destruct (@digits_are_text s H Hne) as [H1 H2].
  assert (Hj : looks_like_json s = false).
  { unfold looks_like_json. rewrite (strip_text _ H1 H2).
    apply orb_false_iff. split.
    - rewrite Es in *. change (lit "{") with [123%N]. rewrite startswith_one.
      cbn [forallb] in H. apply andb_prop in H. destruct H as [Hx _].
      apply N.eqb_neq. intros E. subst x. discriminate.
    - apply contains_without_first.
      apply (@digits_free (fun c => c = DQ)); [|exact H].
      intros c Hc. subst c. reflexivity. }
  rewrite Hj. unfold Clean.clean_markup, Clean.strip_markup.
  rewrite (@sub_no_match Pat.vtt_header _ s)
    by (apply needs_no_match with (Q := fun c => c = 87%N);
        [find_needed|apply digits_free; [intros c Hc; subst c; reflexivity|exact H]]).
  rewrite (@sub_no_match Pat.srt_timestamp _ s)
    by (apply needs_no_match with (Q := fun c => c = 58%N);
        [apply srt_timestamp_needs_colon
        |apply digits_free; [intros c Hc; subst c; reflexivity|exact H]]).
  rewrite (@sub_no_match Pat.vtt_timestamp _ s)
    by (apply needs_no_match with (Q := fun c => c = 58%N);
        [apply vtt_timestamp_needs_colon
        |apply digits_free; [intros c Hc; subst c; reflexivity|exact H]]).
  rewrite (sequence_number_deletes_digits _ H). reflexivity.
Qed.

Lemma digits_payload_gives_empty_witness :
  _clean_subtitle_text (lit "2024") = Ok [].
Proof.
  apply (@digits_payload_gives_empty (lit "2024")). reflexivity.
Defined.

(** ** The JSON branch on caption data *)

Lemma py_join_space_strings (parts : list str) :
  py_join_space (map JStr parts) = Ok (join (lit " ") parts).
Proof.
  induction parts as [|p ps IH]; [reflexivity|].
  destruct ps as [|q ps]; [reflexivity|].
  change (py_join_space (map JStr (p :: q :: ps)))
    with (rbind (py_join_space (map JStr (q :: ps)))
            (fun rest => Ok (p ++ lit " " ++ rest))).
  rewrite IH. reflexivity.
Qed.

Lemma rfor_gather (A : Type) (body : A -> result (list json))
    (f : A -> option (list str)) (items : list A) :
  (forall x a, f x = Some a -> body x = Ok (map JStr a)) ->
  forall parts,
    gather f items = Some parts -> rfor body items = Ok (map JStr parts).
Proof.
  intros Hbody. induction items as [|x items IH]; intros parts.
  - intros H. injection H as H. subst parts. reflexivity.
  - cbn [gather rfor]. destruct (f x) as [a|] eqn:Ex; [|discriminate].
    destruct (gather f items) as [b|]; [|discriminate].
    intros H. injection H as H. subst parts.
    rewrite (Hbody _ _ Ex). cbn [rbind]. rewrite (IH b eq_refl). cbn [rbind].
    rewrite map_app. reflexivity.
Qed.

Lemma py_in_dict (d : list (str * json)) (key : str) :
  py_in key (JObj d)
  = Ok (match dict_get d key with Some _ => true | None => false end).
Proof. reflexivity. Qed.

Lemma visit_seg_texts (seg : json) (a : list str) :
  seg_texts seg = Some a -> visit_seg seg = Ok (map JStr a).
Proof.
  unfold seg_texts, visit_seg. destruct seg as [| | | |items|d]; try discriminate.
  rewrite py_in_dict. cbn [rbind py_getitem].
  destruct (dict_get d (lit "utf8")) as [[| | |s| |]|]; try discriminate;
    intros H; injection H as H; subst a; reflexivity.
Qed.

Lemma visit_event_texts (event : json) (a : list str) :
  event_texts event = Some a -> visit_event event = Ok (map JStr a).
Proof.
  unfold event_texts, visit_event.
  destruct event as [| | | |items|d]; try discriminate.
  rewrite py_in_dict. cbn [rbind py_getitem].
  destruct (dict_get d (lit "segs")) as [[| | | |segs|]|]; try discriminate.
  - cbn [rbind py_iter]. apply rfor_gather. exact visit_seg_texts.
  - intros H. injection H as H. subst a. reflexivity.
Qed.

(** On caption data the walk returns: the [utf8] strings are joined by
    plain spaces, tags and style blocks are deleted, and the text goes
    through the shared clean-up. *)
Lemma clean_events_captions (data : json) (parts : list str) :
  caption_texts data = Some parts ->
  clean_events data
  = Ok (Some (Clean.tidy
                (sub Pat.style_block Pat.t_empty
                   (sub Pat.tag Pat.t_empty (join (lit " ") parts))))).
Proof.
  unfold caption_texts, clean_events.
  destruct data as [| | | |items|d]; try discriminate.
  rewrite py_in_dict. cbn [rbind py_getitem].
  destruct (dict_get d (lit "events")) as [[| | | |events|]|]; try discriminate.
  intros H. cbn [rbind py_iter].
  rewrite (rfor_gather visit_event event_texts events visit_event_texts H).
  cbn [rbind]. rewrite py_join_space_strings. reflexivity.
Qed.

(** *** A parsed dict comes from a payload that starts with a brace *)

Lemma parse_items_list (fuel : nat) :
  forall s acc v r, parse_items fuel s acc = Parsed v r -> exists l, v = JArr l.
Proof.
  induction fuel as [|fuel IH]; intros s acc v r; [discriminate|].
  cbn [parse_items]. destruct (scan_once fuel s) as [w s1| | |]; try discriminate.
  destruct (expect 93 (skip_ws s1)).
  - intros H. injection H as H _. eexists. symmetry. exact H.
  - destruct (expect 44 (skip_ws s1)); [apply IH|discriminate].
Qed.

Lemma match_constant_not_dict (table : list (str * json)) (s : str)
    (d : list (str * json)) (r : str) :
  Forall (fun e => forall m, snd e <> JObj m) table ->
  match_constant table s <> Some (JObj d, r).
Proof.
  induction 1 as [|[w v] table Hv _ IH]; [discriminate|].
  cbn [match_constant]. destruct (startswith w s); [|exact IH].
  intros H. injection H as H _. exact (Hv d H).
Qed.

Lemma scan_dict_starts_with_brace (fuel : nat) (s r : str)
    (d : list (str * json)) :
  scan_once fuel s = Parsed (JObj d) r -> exists s', s = 123%N :: s'.
Proof.
  destruct fuel as [|fuel]; [discriminate|]. cbn [scan_once].
  destruct s as [|c s']; [discriminate|].
  destruct (c =? DQ)%N.
  { destruct (scanstring _ _ _); discriminate. }
  destruct (c =? 123)%N eqn:Ec.
  { intros _. apply N.eqb_eq in Ec. subst c. exists s'. reflexivity. }
  destruct (c =? 91)%N.
  { destruct (expect 93 (skip_ws s')); [discriminate|].
    intros H. destruct (parse_items_list _ _ _ H) as [l Hl]. discriminate. }
  destruct (match_constant constants (c :: s')) as [[v r']|] eqn:Em.
  { intros H. injection H as H1 H2. subst v r'.
    exfalso. revert Em. apply match_constant_not_dict.
    repeat constructor; intros m; discriminate. }
  destruct (match_number (c :: s')) as [[tok r']|]; [|discriminate].
  destruct (refused_by_int tok); discriminate.
Qed.

Lemma skip_ws_lstrip (s : str) (c : N) (rest : str) :
  skip_ws s = c :: rest -> isspace c = false -> lstrip s = c :: rest.
Proof.
  induction s as [|x s IH]; [discriminate|].
  cbn [skip_ws lstrip]. intros H Hc. destruct (is_ws x) eqn:Ex.
  - assert (Hx : isspace x = true).
    { unfold is_ws in Ex. rewrite !orb_true_iff, !N.eqb_eq in Ex.
      destruct Ex as [[[E|E]|E]|E]; subst x; reflexivity. }
    rewrite Hx. apply IH; assumption.
  - injection H as H1 H2. subst x s. rewrite Hc. reflexivity.
Qed.

Lemma lstrip_keeps_text (a : str) (c : N) :
  isspace c = false -> lstrip (a ++ [c]) <> [].
Proof.
  intros Hc. induction a as [|x a IH]; cbn [app lstrip].
  - rewrite Hc. discriminate.
  - destruct (isspace x); [exact IH|discriminate].
Qed.

Lemma rstrip_keeps_first (c : N) (rest : str) :
  isspace c = false -> exists rest', rstrip (c :: rest) = c :: rest'.
Proof.
  intros Hc. destruct (rstrip_prefix (c :: rest)) as [post H].
  destruct (rstrip (c :: rest)) as [|x r] eqn:E.
  - exfalso. unfold rstrip in E. cbn [rev] in E.
    apply (f_equal (@rev N)) in E. rewrite rev_involutive in E.
    exact (@lstrip_keeps_text (rev rest) c Hc E).
  - injection H as H _. subst x. exists r. reflexivity.
Qed.

Lemma parsed_dict_looks_like_json (s : str) (d : list (str * json)) (rest : str) :
  loads s = Parsed (JObj d) rest -> looks_like_json s = true /\ s <> [].
Proof.
  unfold loads, loads_with. destruct (expect 65279 s); [discriminate|].
  destruct (scan_once _ (skip_ws s)) as [v r| | |] eqn:E; try discriminate.
  destruct (skip_ws r); [|discriminate].
  intros H. injection H as H _. subst v.
  destruct (scan_dict_starts_with_brace _ _ E) as [s' Hs].
  split.
  - unfold looks_like_json, strip.
    rewrite (skip_ws_lstrip _ Hs eq_refl).
    destruct (@rstrip_keeps_first 123%N s' eq_refl) as [r' Hr]. rewrite Hr.
    reflexivity.
  - intros Hnil. subst s. discriminate.
Qed.

(** X16: when [json.loads] turns the payload into caption data of the usual
    shape (a dict whose [events] are dicts, whose [segs] are lists of dicts
    and whose [utf8] members are strings, each of the last two possibly
    absent), the normalizer returns, and its result is made of the [utf8]
    strings in document order: joined by plain spaces, tags and style
    blocks deleted, then the shared clean-up. *)
Theorem caption_data_normalized :
  forall (s : str) (data : json) (parts : list str),
    loads s = Parsed data [] ->
    caption_texts data = Some parts ->
    _clean_subtitle_text s
    = Ok (Clean.tidy
            (sub Pat.style_block Pat.t_empty
               (sub Pat.tag Pat.t_empty (join (lit " ") parts)))).
Proof.
  intros s data parts Hl Hc.
  assert (Hd : exists d, data = JObj d).
  { destruct data as [| | | |items|d]; try discriminate. exists d. reflexivity. }
  destruct Hd as [d Hd]. subst data.
  destruct (parsed_dict_looks_like_json _ Hl) as [Hj Hne].
  unfold _clean_subtitle_text.
  destruct s as [|c s]; [contradiction|]. cbn [truthy negb]. cbv iota.
  rewrite Hj. unfold json_branch. rewrite Hl.
  rewrite (clean_events_captions _ Hc). reflexivity.
Qed.

Lemma caption_data_normalized_witness :
  _clean_subtitle_text json_sample
  = Ok (Clean.tidy
          (sub Pat.style_block Pat.t_empty
             (sub Pat.tag Pat.t_empty
                (join (lit " ") [lit "Hello"; lit "world."])))).
Proof.
  apply (@caption_data_normalized json_sample
           (JObj [(lit "events",
                   JArr [JObj [(lit "segs", JArr [JObj [(lit "utf8", JStr (lit "Hello"))]])];
                         JObj [(lit "segs", JArr [JObj [(lit "utf8", JStr (lit "world."))]])]])])
           [lit "Hello"; lit "world."]).
  - vm_compute. reflexivity.
  - reflexivity.
Defined.
